(** * Shellfish Environmental Monitor: generator, series buffer, alert
      classifier and CSV export of [src/App.tsx]

    The development has two parts.  Part I embeds the data model and the
    functions of [App.tsx] (with the few platform functions they call:
    binary64 arithmetic, [Math.random], [Array.prototype.sort],
    [Number.prototype.toFixed], [Date.prototype.toISOString]).  Part II
    states and proves the properties of the specification. *)

From stdpp Require Import gmap strings list sorting.
From Stdlib Require Import QArith Qround Qpower Qabs Lqa Lia DecimalPos DecimalString.
From Stdlib Require Import PrimFloat FloatOps SpecFloat.
From Stdlib Require Import Ascii Permutation DecimalZ.

Local Open Scope Q_scope.

(* ===================================================================== *)
(** * Part I: the embedding *)
(* ===================================================================== *)

(** ** Numbers

    A JavaScript [number] is an IEEE 754 binary64 value.  It is modelled by
    the rational number it denotes, and every arithmetic operation rounds
    its exact result to the nearest binary64 value, ties to even, as the
    hardware does.  NaN, the infinities and the sign of zero are not
    represented: the generator never produces them (every value it stores
    is clamped to a finite range). *)

(** Round to the nearest integer, ties to the even one. *)
Definition rne (x : Q) : Z :=
  let f := Qfloor x in
  match Qcompare (x - inject_Z f) (1 # 2) with
  | Lt => f
  | Gt => (f + 1)%Z
  | Eq => if Z.even f then f else (f + 1)%Z
  end.

(** [ilog2 x] is the binade of a positive [x]: [2^(ilog2 x) <= x < 2^(ilog2 x + 1)]. *)
Definition ilog2 (x : Q) : Z :=
  let d := (Z.log2 (Qnum x) - Z.log2 (Zpos (Qden x)))%Z in
  if Qle_bool (2 ^ d) x then d else (d - 1)%Z.

(** The unit in the last place of the binade of [x]: 53 significant bits,
    and the fixed spacing [2^-1074] of the subnormal range below [2^-1022]. *)
Definition ulp (x : Q) : Q := 2 ^ (Z.max (ilog2 x) (-1022) - 52).

Definition fl_pos (x : Q) : Q := Qred (inject_Z (rne (x / ulp x)) * ulp x).

(** [fl x] is the binary64 value nearest to [x] (sign and magnitude). *)
Definition fl (x : Q) : Q :=
  match Qnum x with
  | Z0 => 0
  | Zpos _ => fl_pos x
  | Zneg _ => - fl_pos (- x)
  end.

(** The arithmetic of [number]: [a + b], [a - b], [a * b]. *)
Definition fadd (a b : Q) : Q := fl (a + b).
Definition fsub (a b : Q) : Q := fl (a - b).
Definition fmul (a b : Q) : Q := fl (a * b).

(** A decimal literal of the source ([7.8], [0.05]) denotes the binary64
    value nearest to it.  Integer literals and [0.5], [1.5] are exact and
    are written as they are. *)
Definition lit (q : Q) : Q := fl q.

(** The rational denoted by a binary64 value of the kernel ([None] for
    NaN and the infinities); it is used to check [fl] against the hardware
    arithmetic on the constants and at the inputs of the examples. *)
Definition float_value (x : float) : option Q :=
  match Prim2SF x with
  | S754_zero _ => Some 0
  | S754_finite s m e =>
      Some (Qred ((if s then -1 else 1) * inject_Z (Zpos m) * 2 ^ e))
  | _ => None
  end.

(** [Math.min], [Math.max] on two numbers, and the comparisons [<=], [>=]. *)
Definition Math_min (a b : Q) : Q := if Qle_bool a b then a else b.
Definition Math_max (a b : Q) : Q := if Qle_bool a b then b else a.

(** ** Randomness and the clock

    [Math.random()] is the only source of nondeterminism.  It is an oracle
    [g : rng] giving the draw of the [i]-th call; a computation that draws
    threads the number of calls made so far. *)

Definition rng := nat -> Q.

Definition Rand (A : Type) : Type := rng -> nat -> A * nat.

#[global] Instance Rand_ret : MRet Rand := fun A a _ i => (a, i).
#[global] Instance Rand_bind : MBind Rand :=
  fun A B k m g i => let (a, j) := m g i in k a g j.

Definition Math_random : Rand Q := fun g i => (g i, S i).

(** The draws lie in [[0, 1)]. *)
Definition uniform01 (g : rng) : Prop := forall i, 0 <= g i /\ g i < 1.

(** ** Data model *)

Inductive ParamKey :=
  | Ktemp | Ksal | Kph | Kdo | Kturb | Kchl
  | Kgene_expr | Kmethyl | Kmetabo | Klipid_ox.

#[global] Instance ParamKey_eq_dec : EqDecision ParamKey.
Proof. solve_decision. Defined.

Record Reading := {
  ts : Z;
  temp : Q;
  sal : Q;
  ph : Q;
  do : Q;
  turb : Q;
  chl : Q;
  gene_expr : Q;
  methyl : Q;
  metabo : Q;
  lipid_ox : Q
}.

(** [(latest as any)[k]]: the field of a reading addressed by its key. *)
Definition field (k : ParamKey) (r : Reading) : Q :=
  match k with
  | Ktemp => temp r | Ksal => sal r | Kph => ph r | Kdo => do r
  | Kturb => turb r | Kchl => chl r | Kgene_expr => gene_expr r
  | Kmethyl => methyl r | Kmetabo => metabo r | Klipid_ox => lipid_ox r
  end.

Module Site.
Record t := { id : string; name : string; lat : Q; lon : Q; depth_m : Z }.
End Site.

Definition SITES : list Site.t :=
  [ {| Site.id := "PS-EDMONDS"; Site.name := "Edmonds Nearshore";
       Site.lat := lit 47.812; Site.lon := lit (-122.377); Site.depth_m := 4 |};
    {| Site.id := "PS-ALKI"; Site.name := "Alki Cove";
       Site.lat := lit 47.576; Site.lon := lit (-122.413); Site.depth_m := 5 |};
    {| Site.id := "PS-DOCKTON"; Site.name := "Dockton Cove";
       Site.lat := lit 47.373; Site.lon := lit (-122.463); Site.depth_m := 3 |};
    {| Site.id := "PS-SKAGIT"; Site.name := "Skagit Bay Farm";
       Site.lat := lit 48.327; Site.lon := lit (-122.482); Site.depth_m := 2 |} ].

Module Dir.
Inductive t := over | under.
End Dir.

Module Level.
Inductive t := ok | warn | crit.

(** The severity order [ok < warn < crit]. *)
Definition rank (l : t) : nat :=
  match l with ok => 0 | warn => 1 | crit => 2 end.
Definition le (a b : t) : Prop := (rank a <= rank b)%nat.
End Level.

Record ThresholdSpec := { warn : Q; crit : Q; dir : Dir.t }.

(** The threshold table is a module-level object whose fields the UI
    overwrites; the classifier reads it at every call.  It is passed
    explicitly. *)
Definition Thresholds := ParamKey -> ThresholdSpec.

Definition THRESHOLDS : Thresholds := fun k =>
  match k with
  | Ktemp      => {| warn := 20;       crit := 24;      dir := Dir.over |}
  | Ksal       => {| warn := 20;       crit := 15;      dir := Dir.under |}
  | Kph        => {| warn := lit 7.7;  crit := lit 7.6; dir := Dir.under |}
  | Kdo        => {| warn := 6;        crit := 4;       dir := Dir.under |}
  | Kturb      => {| warn := 50;       crit := 150;     dir := Dir.over |}
  | Kchl       => {| warn := 15;       crit := 40;      dir := Dir.over |}
  | Kgene_expr => {| warn := 40;       crit := 70;      dir := Dir.over |}
  | Kmethyl    => {| warn := lit 0.55; crit := lit 0.7; dir := Dir.over |}
  | Kmetabo    => {| warn := 50;       crit := 75;      dir := Dir.over |}
  | Klipid_ox  => {| warn := lit 0.35; crit := lit 0.55; dir := Dir.over |}
  end.

(** ** Alert classifier *)

Definition classifyAlert (T : Thresholds) (key : ParamKey) (value : Q) : Level.t :=
  let '{| warn := warn; crit := crit; dir := dir |} := T key in
  match dir with
  | Dir.over =>
      if Qle_bool crit value then Level.crit
      else if Qle_bool warn value then Level.warn
      else Level.ok
  | Dir.under =>
      if Qle_bool value crit then Level.crit
      else if Qle_bool value warn then Level.warn
      else Level.ok
  end.

(** ** Reading generator *)

Definition randomWalk (prev step min max : Q) : Rand Q :=
  u ← Math_random;
  let next := fadd prev (fmul (fsub u (1 # 2)) step) in
  mret (Math_max min (Math_min max next)).

Definition generateSeeded (start : Z) : Rand Reading :=
  u1 ← Math_random; u2 ← Math_random; u3 ← Math_random; u4 ← Math_random;
  u5 ← Math_random; u6 ← Math_random; u7 ← Math_random; u8 ← Math_random;
  u9 ← Math_random; u10 ← Math_random;
  mret {| ts := start;
          temp := fadd 16 (fmul u1 4);
          sal := fadd 28 (fmul u2 3);
          ph := fadd (lit 7.8) (fmul u3 (lit 0.2));
          do := fadd 7 (fmul u4 2);
          turb := fadd 10 (fmul u5 25);
          chl := fadd 3 (fmul u6 10);
          gene_expr := fadd 20 (fmul u7 20);
          methyl := fadd (lit 0.4) (fmul u8 (lit 0.1));
          metabo := fadd 20 (fmul u9 20);
          lipid_ox := fadd (lit 0.25) (fmul u10 (lit 0.1)) |}.

Definition tick (prev : Reading) (ts : Z) : Rand Reading :=
  temp' ← randomWalk (temp prev) (lit 0.3) 8 26;
  sal' ← randomWalk (sal prev) (lit 0.3) 10 33;
  ph' ← randomWalk (ph prev) (lit 0.05) (lit 7.3) (lit 8.3);
  do' ← randomWalk (do prev) (lit 0.4) (3 # 2) 12;
  turb' ← randomWalk (turb prev) 6 1 300;
  chl' ← randomWalk (chl prev) 3 (lit 0.1) 120;
  gene_expr' ← randomWalk (gene_expr prev) 4 0 100;
  methyl' ← randomWalk (methyl prev) (lit 0.03) 0 1;
  metabo' ← randomWalk (metabo prev) 5 0 100;
  lipid_ox' ← randomWalk (lipid_ox prev) (lit 0.03) 0 1;
  mret {| ts := ts; temp := temp'; sal := sal'; ph := ph'; do := do';
          turb := turb'; chl := chl'; gene_expr := gene_expr';
          methyl := methyl'; metabo := metabo'; lipid_ox := lipid_ox' |}.

(** The per-parameter [(step, min, max)] of [tick], as a table. *)
Definition walk (k : ParamKey) : Q * Q * Q :=
  match k with
  | Ktemp => (lit 0.3, 8, 26)
  | Ksal => (lit 0.3, 10, 33)
  | Kph => (lit 0.05, lit 7.3, lit 8.3)
  | Kdo => (lit 0.4, 3 # 2, 12)
  | Kturb => (6, 1, 300)
  | Kchl => (3, lit 0.1, 120)
  | Kgene_expr => (4, 0, 100)
  | Kmethyl => (lit 0.03, 0, 1)
  | Kmetabo => (5, 0, 100)
  | Klipid_ox => (lit 0.03, 0, 1)
  end.
Definition stepSize (k : ParamKey) : Q := fst (fst (walk k)).
Definition lower (k : ParamKey) : Q := snd (fst (walk k)).
Definition upper (k : ParamKey) : Q := snd (walk k).

Definition keys : list ParamKey :=
  [Ktemp; Ksal; Kph; Kdo; Kturb; Kchl; Kgene_expr; Kmethyl; Kmetabo; Klipid_ox].

(** The position of a parameter in a reading, which is also the order in
    which [generateSeeded] and [tick] draw. *)
Definition index (k : ParamKey) : nat :=
  match k with
  | Ktemp => 0 | Ksal => 1 | Kph => 2 | Kdo => 3 | Kturb => 4 | Kchl => 5
  | Kgene_expr => 6 | Kmethyl => 7 | Kmetabo => 8 | Klipid_ox => 9
  end.

(** [clamp(x, min, max)] and the perturbation [uniform(-step/2, +step/2)]
    drawn from [u], as [randomWalk] computes them. *)
Definition clamp (x min max : Q) : Q := Math_max min (Math_min max x).
Definition noise (u step : Q) : Q := fmul (fsub u (1 # 2)) step.

(** Successive [tick] calls, one per timestamp, each from the reading the
    previous call returned. *)
Fixpoint ticks (tss : list Z) (prev : Reading) : Rand (list Reading) :=
  match tss with
  | [] => mret []
  | t :: tss' => r ← tick prev t; rs ← ticks tss' r; mret (r :: rs)
  end.

(** The data-model invariant of a reading: every field within its range. *)
Definition in_range (r : Reading) : Prop :=
  forall k, lower k <= field k r /\ field k r <= upper k.

(** ** Series buffer

    [series : Record<string, Reading[]>], one array per site id. *)

Abbreviation Series := (gmap string (list Reading)).

(** The backfill loop of the seeding effect,
    [for (let t = now - 3 * 3600_000; t <= now; t += 300_000)
       { r = tick(r, t); rows.push(r); }].
    [fuel] bounds the number of iterations; the result is [None] when it
    runs out before the loop condition fails. *)
Fixpoint backfill (fuel : nat) (now t : Z) (r : Reading) (rows : list Reading)
  : Rand (option (list Reading)) :=
  match fuel with
  | O => mret None
  | S fuel' =>
      if (t <=? now)%Z then
        r' ← tick r t;
        backfill fuel' now (t + 300000) r' (rows ++ [r'])
      else mret (Some rows)
  end.

(** The body of the seeding loop for one site: [now] is the value of
    [Date.now()] read in that iteration. *)
Definition seedRows (fuel : nat) (now : Z) : Rand (option (list Reading)) :=
  r ← generateSeeded (now - 3 * 3600000);
  backfill fuel now (now - 3 * 3600000) r [].

(** The seeding effect over a list of sites; [clock] gives the value of
    [Date.now()] read in the iteration of each site. *)
Fixpoint seedSites (fuel : nat) (clock : string -> Z) (sites : list Site.t)
  (seed : Series) : Rand (option Series) :=
  match sites with
  | [] => mret (Some seed)
  | site :: rest =>
      rows ← seedRows fuel (clock (Site.id site));
      match rows with
      | Some rows => seedSites fuel clock rest (<[Site.id site := rows]> seed)
      | None => mret None
      end
  end.

Definition seedAll (fuel : nat) (clock : string -> Z) : Rand (option Series) :=
  seedSites fuel clock SITES ∅.

(** [arr.slice(-n)]: the last [n] elements, all of them when there are fewer. *)
Definition slice_last {A} (n : nat) (arr : list A) : list A :=
  drop (length arr - n) arr.

(** What one pass of the interval callback computes from the array of one
    site: [last = arr[arr.length - 1] ?? generateSeeded(now)],
    [next = tick(last, now)], [[...arr.slice(-240), next]]. *)
Definition advanceRows (now : Z) (arr : list Reading) : Rand (list Reading) :=
  last_ ← match last arr with
          | Some r => mret r
          | None => generateSeeded now
          end;
  next ← tick last_ now;
  mret (slice_last 240 arr ++ [next]).

Definition advanceSite (now : Z) (copy : Series) (site : Site.t) : Rand Series :=
  let arr := default [] (copy !! Site.id site) in
  rows ← advanceRows now arr;
  mret (<[Site.id site := rows]> copy).

Fixpoint forSites (now : Z) (sites : list Site.t) (copy : Series) : Rand Series :=
  match sites with
  | [] => mret copy
  | site :: rest => copy' ← advanceSite now copy site; forSites now rest copy'
  end.

(** The callback of [setSeries] in the interval timer. *)
Definition advance (prev : Series) (now : Z) : Rand Series :=
  forSites now SITES prev.

(** [n] timer ticks; [nows] gives the value of [Date.now()] at each. *)
Fixpoint advances (nows : list Z) (s : Series) : Rand Series :=
  match nows with
  | [] => mret s
  | now :: rest => s' ← advance s now; advances rest s'
  end.

(** The timestamps the header of the backfill loop enumerates: [n] values
    from [t] in steps of five minutes. *)
Fixpoint stamps (t : Z) (n : nat) : list Z :=
  match n with
  | O => []
  | S n' => t :: stamps (t + 300000) n'
  end.

(** What the seeding effect stores for a site whose clock reading is [now]. *)
Definition seeded_history (now : Z) (rows : list Reading) : Prop :=
  length rows = 37%nat /\
  List.map ts rows = stamps (now - 3 * 3600000) 37 /\
  StronglySorted Z.lt (List.map ts rows) /\
  Forall in_range rows.

(** The number of [Math.random()] calls one pass of the callback makes for
    an array (ten for [tick], ten more when it has to seed), and the number
    it makes before it reaches the site [id]. *)
Definition drawsFor (arr : list Reading) : nat :=
  match last arr with Some _ => 10 | None => 20 end.

Fixpoint drawsBefore (sites : list Site.t) (copy : Series) (id : string) : nat :=
  match sites with
  | [] => 0
  | site :: rest =>
      if decide (Site.id site = id) then 0%nat
      else (drawsFor (default [] (copy !! Site.id site)) + drawsBefore rest copy id)%nat
  end.

(** [latest = data[data.length - 1]] of the active site. *)
Definition latest (series : Series) (activeSite : string) : option Reading :=
  last (default [] (series !! activeSite)).

(** ** [Array.prototype.sort]

    ECMAScript leaves the order implementation-defined when the comparator
    is not a consistent comparison function.  The model is the algorithm of
    V8 (Chrome, Node.js): TimSort, whose minimal run length is the whole
    array when it has fewer than 64 elements, so that sorting is
    [CountAndMakeRun] followed by [BinaryInsertionSort].  Arrays are lists;
    [compare a b] returns the number the comparator returns. *)

Module V8.
Section Sort.
Context {A : Type} (compare : A -> A -> Z).

(** The scan of [CountAndMakeRun] after the first two elements: how many
    more elements continue the run. *)
Fixpoint countRun (isDescending : bool) (previousElement : A) (rest : list A) : nat :=
  match rest with
  | [] => 0
  | currentElement :: rest' =>
      let order := compare currentElement previousElement in
      if isDescending then
        if (order >=? 0)%Z then 0 else S (countRun isDescending currentElement rest')
      else
        if (order <? 0)%Z then 0 else S (countRun isDescending currentElement rest')
  end.

(** Returns the array, with its initial run reversed when it is descending,
    and the length of the run. *)
Definition CountAndMakeRun (workArray : list A) : list A * nat :=
  match workArray with
  | elementHigh :: elementLow :: rest =>
      let order := compare elementLow elementHigh in
      let isDescending := (order <? 0)%Z in
      let runLength := (2 + countRun isDescending elementLow rest)%nat in
      if isDescending
      then (rev (take runLength workArray) ++ drop runLength workArray, runLength)
      else (workArray, runLength)
  | _ => (workArray, length workArray)
  end.

(** The binary search of [BinaryInsertionSort]:
    [while (left < right) { mid = left + ((right - left) >> 1);
       if (compare(pivot, workArray[mid]) < 0) right = mid; else left = mid + 1; }].
    The interval shrinks at every iteration, so [right - left] is enough fuel. *)
Fixpoint search (fuel : nat) (workArray : list A) (pivot : A) (left right : nat) : nat :=
  match fuel with
  | O => left
  | S fuel' =>
      if (left <? right)%nat then
        let mid := (left + (right - left) / 2)%nat in
        match workArray !! mid with
        | Some x =>
            if (compare pivot x <? 0)%Z
            then search fuel' workArray pivot left mid
            else search fuel' workArray pivot (S mid) right
        | None => left
        end
      else left
  end.

(** One iteration of the outer loop: the pivot [workArray[start]] moves to
    the position found, the elements in between shift right by one. *)
Definition insertPivot (workArray : list A) (start : nat) : list A :=
  match workArray !! start with
  | Some pivot =>
      let left := search start workArray pivot 0 start in
      take left workArray ++ pivot :: take (start - left) (drop left workArray)
        ++ drop (S start) workArray
  | None => workArray
  end.

(** [for (; start < high; ++start)], with [count = high - start]. *)
Fixpoint insertFrom (count : nat) (workArray : list A) (start : nat) : list A :=
  match count with
  | O => workArray
  | S count' => insertFrom count' (insertPivot workArray start) (S start)
  end.

Definition BinaryInsertionSort (workArray : list A) (startArg : nat) : list A :=
  let start := if (startArg =? 0)%nat then 1%nat else startArg in
  insertFrom (length workArray - start) workArray start.

(** [ArrayTimSortImpl] for arrays of fewer than 64 elements. *)
Definition sort (array : list A) : list A :=
  if (length array <? 2)%nat then array
  else
    let '(workArray, currentRunLength) := CountAndMakeRun array in
    if (currentRunLength <? length array)%nat
    then BinaryInsertionSort workArray currentRunLength
    else workArray.

End Sort.
End V8.

(** ** Active alerts *)

Record Alert := { key : ParamKey; level : Level.t; value : Q }.

(** The comparator [(a, b) => (a.level === "crit" ? -1 : 1)]. *)
Definition alertCompare (a b : Alert) : Z :=
  match level a with Level.crit => (-1)%Z | _ => 1%Z end.

Definition is_ok (l : Level.t) : bool :=
  match l with Level.ok => true | _ => false end.
Definition is_crit (l : Level.t) : bool :=
  match l with Level.crit => true | _ => false end.

(** The alerts before sorting: [keys.map(...).filter(a => a.level !== "ok")]. *)
Definition classified (T : Thresholds) (r : Reading) : list Alert :=
  List.filter (fun a => negb (is_ok (level a)))
    (List.map (fun k => {| key := k; level := classifyAlert T k (field k r);
                           value := field k r |}) keys).

(** The [alerts] memo of [App]. *)
Definition alerts (T : Thresholds) (latest : option Reading) : list Alert :=
  match latest with
  | None => []
  | Some r => V8.sort alertCompare (classified T r)
  end.

(** Following the specification of [activeAlerts]: a stable two-bucket
    partition, all critical entries before all warning entries, each group
    in the enumeration order of the parameters. *)
Definition stablePartition (l : list Alert) : list Alert :=
  List.filter (fun a => is_crit (level a)) l
    ++ List.filter (fun a => negb (is_crit (level a))) l.

(** ** CSV export *)

(** [ToString] of an integer-valued number (decimal digits, a leading
    [-] when negative), as for [r.ts] in [Array.prototype.join]. *)
Definition Number_toString (n : Z) : string :=
  NilZero.string_of_int (Z.to_int n).

Fixpoint zeros (n : nat) : string :=
  match n with
  | O => ""
  | S n' => "0" +:+ zeros n'
  end.

(** [Number.prototype.toFixed(fractionDigits)]: [n] is the integer for
    which [n / 10^f - x] is closest to zero, the larger one when there are
    two; [m] is its decimal expansion, padded with zeros to [f + 1] digits,
    with a point before the last [f] digits.  For [x >= 10^21] the result
    is the exponential notation of [ToString], which is not modelled:
    [None]. *)
Definition toFixed (x : Q) (fractionDigits : nat) : option string :=
  let f := fractionDigits in
  let s := if Qle_bool 0 x then "" else "-" in
  let x := Qabs x in
  if Qle_bool (10 ^ 21) x then None
  else
    let n := Qfloor (x * 10 ^ Z.of_nat f + (1 # 2)) in
    let m := Number_toString n in
    let m :=
      if (f =? 0)%nat then m
      else
        let k := String.length m in
        let m := if (k <=? f)%nat then zeros (f + 1 - k) +:+ m else m in
        let k := String.length m in
        String.substring 0 (k - f) m +:+ "." +:+ String.substring (k - f) f m in
    Some (s +:+ m).

(** Decimal digits of [n], padded with zeros on the left to [width]. *)
Definition pad (width : nat) (n : Z) : string :=
  let s := Number_toString n in
  zeros (width - String.length s) +:+ s.

(** Year, month and day of the month of a day number (days since
    1970-01-01, proleptic Gregorian calendar). *)
Definition civil (day : Z) : Z * Z * Z :=
  let z := (day + 719468)%Z in
  let era := (z / 146097)%Z in
  let doe := (z - era * 146097)%Z in
  let yoe := ((doe - doe / 1460 + doe / 36524 - doe / 146096) / 365)%Z in
  let doy := (doe - (365 * yoe + yoe / 4 - yoe / 100))%Z in
  let mp := ((5 * doy + 2) / 153)%Z in
  let d := (doy - (153 * mp + 2) / 5 + 1)%Z in
  let m := if (mp <? 10)%Z then (mp + 3)%Z else (mp - 9)%Z in
  let y := (yoe + era * 400 + (if (m <=? 2)%Z then 1 else 0))%Z in
  (y, m, d).

(** [new Date(t).toISOString()]: [YYYY-MM-DDTHH:mm:ss.sssZ] in UTC, the
    year with a sign and six digits outside 0..9999; a [RangeError]
    ([None]) when [t] is not a valid time value. *)
Definition toISOString (t : Z) : option string :=
  if (Z.abs t <=? 8640000000000000)%Z then
    let ms := (t mod 86400000)%Z in
    let '(y, m, d) := civil (t / 86400000) in
    let year :=
      if ((0 <=? y) && (y <=? 9999))%Z then pad 4 y
      else (if (0 <=? y)%Z then "+" else "-") +:+ pad 6 (Z.abs y) in
    Some (year +:+ "-" +:+ pad 2 m +:+ "-" +:+ pad 2 d +:+ "T"
          +:+ pad 2 (ms / 3600000) +:+ ":" +:+ pad 2 (ms / 60000 mod 60) +:+ ":"
          +:+ pad 2 (ms / 1000 mod 60) +:+ "." +:+ pad 3 (ms mod 1000) +:+ "Z")
  else None.

(** The line feed of [join("\n")]. *)
Definition LF : string := String (Ascii.ascii_of_nat 10) "".

Definition columns : list string :=
  [ "timestamp"; "time_local";
    "temp_c"; "sal_psu"; "ph"; "do_mgL"; "turb_ntu"; "chl_ugL";
    "gene_expr_AU"; "methyl_frac"; "metabo_AU"; "lipid_ox_frac" ].

Definition header : string := String.concat "," columns.

(** One element of [rows.map(r => [...].join(","))]. *)
Definition line (r : Reading) : option string :=
  time_local ← toISOString (ts r);
  temp_c ← toFixed (temp r) 2;
  sal_psu ← toFixed (sal r) 2;
  ph_ ← toFixed (ph r) 2;
  do_mgL ← toFixed (do r) 2;
  turb_ntu ← toFixed (turb r) 1;
  chl_ugL ← toFixed (chl r) 1;
  gene_expr_AU ← toFixed (gene_expr r) 1;
  methyl_frac ← toFixed (methyl r) 3;
  metabo_AU ← toFixed (metabo r) 1;
  lipid_ox_frac ← toFixed (lipid_ox r) 3;
  Some (String.concat ","
          [ Number_toString (ts r); time_local;
            temp_c; sal_psu; ph_; do_mgL; turb_ntu; chl_ugL;
            gene_expr_AU; methyl_frac; metabo_AU; lipid_ox_frac ]).

Definition toCSV (rows : list Reading) : option string :=
  lines ← mapM line rows;
  Some (String.concat LF (header :: lines)).

(** Following the specification of the numeric columns: [s] is [x] in
    fixed notation with [d] decimals.  It is a sign, an integer part of at
    least one digit, a point and exactly [d] digits, and the digits read as
    a decimal numeral are the integer nearest to [|x| * 10^d] (the larger
    one of two). *)
Definition decimal_value (s : string) : option Z :=
  option_map Z.of_uint (NilEmpty.uint_of_string s).

Definition fixed_notation (d : nat) (x : Q) (s : string) : Prop :=
  exists int frac : string,
    s = (if Qle_bool 0 x then "" else "-") +:+ int +:+ "." +:+ frac /\
    (1 <= String.length int)%nat /\
    String.length frac = d /\
    decimal_value (int +:+ frac) = Some (Qfloor (Qabs x * 10 ^ Z.of_nat d + (1 # 2))).

(** The readings [toCSV] is defined on: a valid time value, and no field
    of magnitude [10^21] or more. *)
Definition exportable (r : Reading) : Prop :=
  (Z.abs (ts r) <= 8640000000000000)%Z /\
  forall k, Qabs (field k r) < 10 ^ 21.

(** What [toCSV] writes for one reading. *)
Definition csv_line (r : Reading) (l : string) : Prop :=
  exists time_local c1 c2 c3 c4 c5 c6 c7 c8 c9 c10 : string,
    l = String.concat ","
          [Number_toString (ts r); time_local; c1; c2; c3; c4; c5; c6; c7; c8; c9; c10] /\
    toISOString (ts r) = Some time_local /\
    fixed_notation 2 (temp r) c1 /\
    fixed_notation 2 (sal r) c2 /\
    fixed_notation 2 (ph r) c3 /\
    fixed_notation 2 (do r) c4 /\
    fixed_notation 1 (turb r) c5 /\
    fixed_notation 1 (chl r) c6 /\
    fixed_notation 1 (gene_expr r) c7 /\
    fixed_notation 3 (methyl r) c8 /\
    fixed_notation 1 (metabo r) c9 /\
    fixed_notation 3 (lipid_ox r) c10.


(** ** Threshold form

    The [onBlur] handlers of the two inputs of a parameter,
    [THRESHOLDS[k].warn = Number(value)] and
    [THRESHOLDS[k].crit = Number(value)]; [v] is the number entered. *)

Definition setWarn (T : Thresholds) (k : ParamKey) (v : Q) : Thresholds :=
  fun k' =>
    if decide (k' = k)
    then {| warn := v; crit := crit (T k); dir := dir (T k) |}
    else T k'.

Definition setCrit (T : Thresholds) (k : ParamKey) (v : Q) : Thresholds :=
  fun k' =>
    if decide (k' = k)
    then {| warn := warn (T k); crit := v; dir := dir (T k) |}
    else T k'.

(** The seed range of each parameter in [generateSeeded]:
    [base + Math.random() * span]. *)
Definition seedRange (k : ParamKey) : Q * Q :=
  match k with
  | Ktemp => (16, 4)
  | Ksal => (28, 3)
  | Kph => (lit 7.8, lit 0.2)
  | Kdo => (7, 2)
  | Kturb => (10, 25)
  | Kchl => (3, 10)
  | Kgene_expr => (20, 20)
  | Kmethyl => (lit 0.4, lit 0.1)
  | Kmetabo => (20, 20)
  | Klipid_ox => (lit 0.25, lit 0.1)
  end.
Definition seedBase (k : ParamKey) : Q := fst (seedRange k).
Definition seedSpan (k : ParamKey) : Q := snd (seedRange k).

(** [x] is a binary64 value: rounding leaves it as it is. *)
Definition representable (x : Q) : Prop := fl x == x.

(** ** Reading the export back

    The cells of one line, as [toCSV] lists them before joining. *)
Definition cells (r : Reading) : option (list string) :=
  time_local ← toISOString (ts r);
  temp_c ← toFixed (temp r) 2;
  sal_psu ← toFixed (sal r) 2;
  ph_ ← toFixed (ph r) 2;
  do_mgL ← toFixed (do r) 2;
  turb_ntu ← toFixed (turb r) 1;
  chl_ugL ← toFixed (chl r) 1;
  gene_expr_AU ← toFixed (gene_expr r) 1;
  methyl_frac ← toFixed (methyl r) 3;
  metabo_AU ← toFixed (metabo r) 1;
  lipid_ox_frac ← toFixed (lipid_ox r) 3;
  Some [ Number_toString (ts r); time_local;
         temp_c; sal_psu; ph_; do_mgL; turb_ntu; chl_ugL;
         gene_expr_AU; methyl_frac; metabo_AU; lipid_ox_frac ].

(** A reader of the text: the pieces of [s] between the occurrences of
    the character [sep], and the table of the cells of every line. *)
Fixpoint splitOn (sep : Ascii.ascii) (s : string) : list string :=
  match s with
  | EmptyString => [EmptyString]
  | String c s' =>
      if Ascii.eqb c sep then EmptyString :: splitOn sep s'
      else match splitOn sep s' with
           | h :: t => String c h :: t
           | [] => [String c EmptyString]
           end
  end.

Definition parseCSV (text : string) : list (list string) :=
  List.map (splitOn ","%char) (splitOn (Ascii.ascii_of_nat 10) text).

(** The characters of the cells: digits, signs, the point and the
    letters and colon of the ISO rendering. *)
Definition cell_char (c : Ascii.ascii) : bool :=
  existsb (Ascii.eqb c)
    ["0"; "1"; "2"; "3"; "4"; "5"; "6"; "7"; "8"; "9"; "-"; "+"; "."; ":"; "T"; "Z"]%char.

Fixpoint all_chars (p : Ascii.ascii -> bool) (s : string) : bool :=
  match s with
  | EmptyString => true
  | String c s' => p c && all_chars p s'
  end.

(** [data = series[activeSite] ?? []], the series shown and exported. *)
Definition data (series : Series) (activeSite : string) : list Reading :=
  default [] (series !! activeSite).

(** ** Site search

    [toLowerCase] and [includes] on strings of ASCII characters, on which
    the case mapping is the one of the letters [A] to [Z]; [toLowerCase]
    is [None] on any other string (the Unicode case mapping is not
    modelled). *)

Definition is_ascii7 (c : ascii) : bool := (nat_of_ascii c <? 128)%nat.

Definition lower_char (c : ascii) : ascii :=
  let n := nat_of_ascii c in
  if ((65 <=? n) && (n <=? 90))%nat then ascii_of_nat (n + 32) else c.

Fixpoint map_chars (f : ascii -> ascii) (s : string) : string :=
  match s with
  | EmptyString => EmptyString
  | String c s' => String (f c) (map_chars f s')
  end.

Definition toLowerCase (s : string) : option string :=
  if all_chars is_ascii7 s then Some (map_chars lower_char s) else None.

(** [s.includes(search)]: [search] occurs in [s]. *)
Fixpoint includes (s search : string) : bool :=
  String.prefix search s ||
  match s with
  | EmptyString => false
  | String _ s' => includes s' search
  end.

(** The predicate of [SITES.filter] for the lowered search text [q]. *)
Definition siteMatches (q : string) (s : Site.t) : option bool :=
  name ← toLowerCase (Site.name s);
  id ← toLowerCase (Site.id s);
  Some (includes name q || includes id q).

Fixpoint filterM {A} (p : A -> option bool) (l : list A) : option (list A) :=
  match l with
  | [] => Some []
  | x :: l' =>
      b ← p x;
      k ← filterM p l';
      Some (if b : bool then x :: k else k)
  end.

(** The [filteredSites] memo: every site when the search box is empty. *)
Definition filteredSites (search : string) : option (list Site.t) :=
  match search with
  | EmptyString => Some SITES
  | _ => q ← toLowerCase search; filterM (siteMatches q) SITES
  end.

(** ** The streaming effect

    [timerRef.current] holds the handle of the interval timer or [null];
    [live] is the set of interval timers of the window that have not been
    cleared; [cleanup] tells whether the last run of the effect returned
    its cleanup function; [fresh] is the next handle [setInterval]
    returns (handles are positive integers). *)

Record Stream := {
  streaming : bool;
  timerRef : option positive;
  live : gset positive;
  cleanup : bool;
  fresh : positive
}.

(** [if (timerRef.current) window.clearInterval(timerRef.current)]. *)
Definition clearCurrent (st : Stream) : gset positive :=
  match timerRef st with
  | Some h => live st ∖ {[ h ]}
  | None => live st
  end.

(** The body of the effect. *)
Definition runEffect (st : Stream) : Stream :=
  if streaming st then
    {| streaming := true; timerRef := Some (fresh st);
       live := live st ∪ {[ fresh st ]}; cleanup := true;
       fresh := Pos.succ (fresh st) |}
  else
    {| streaming := false; timerRef := None; live := clearCurrent st;
       cleanup := false; fresh := fresh st |}.

(** The cleanup the effect returned, if it returned one. *)
Definition runCleanup (st : Stream) : Stream :=
  if cleanup st then
    {| streaming := streaming st; timerRef := timerRef st; live := clearCurrent st;
       cleanup := false; fresh := fresh st |}
  else st.

(** The component is mounted with [streaming = true].  The effect runs
    at mount; when [streaming] changes, the cleanup of the previous run
    and then the effect run; remounting (as Strict Mode does) runs the
    cleanup and the effect again; unmounting runs the cleanup. *)
Definition mount : Stream :=
  runEffect {| streaming := true; timerRef := None; live := ∅; cleanup := false;
               fresh := 1%positive |}.

Inductive StreamEvent := Toggle | Remount.

Definition setStreaming (b : bool) (st : Stream) : Stream :=
  {| streaming := b; timerRef := timerRef st; live := live st;
     cleanup := cleanup st; fresh := fresh st |}.

Definition streamStep (st : Stream) (e : StreamEvent) : Stream :=
  match e with
  | Toggle => runEffect (runCleanup (setStreaming (negb (streaming st)) st))
  | Remount => runEffect (runCleanup st)
  end.

Definition streamRun (events : list StreamEvent) : Stream :=
  fold_left streamStep events mount.

Definition unmount (st : Stream) : Stream := runCleanup st.

(** What holds between two renders: while streaming, the ref holds the
    one live timer and a cleanup is registered; while paused, the ref
    is null, no timer is live and no cleanup is registered. *)
Definition settled (st : Stream) : Prop :=
  if streaming st
  then exists h, timerRef st = Some h /\ live st = {[ h ]} /\ cleanup st = true
  else timerRef st = None /\ live st = ∅ /\ cleanup st = false.

(** The number of switch toggles among the events. *)
Fixpoint toggles (events : list StreamEvent) : nat :=
  match events with
  | [] => 0
  | Toggle :: events' => S (toggles events')
  | Remount :: events' => toggles events'
  end.

(** ** Sample inputs *)

(** A table that violates the ordering of its levels (direction [over]
    with the critical level below the warning level). *)
Definition inverted : Thresholds :=
  fun _ => {| warn := 24; crit := 20; dir := Dir.over |}.

(** Every draw is one half. *)
Definition draws_half : rng := fun _ => 1 # 2.

(** A reading far outside every range. *)
Definition reading_far : Reading :=
  {| ts := 0; temp := 1000; sal := -5; ph := 14; do := 0; turb := 10 ^ 30;
     chl := 0; gene_expr := -1; methyl := 2; metabo := 101; lipid_ox := 7 |}.

(** The largest multiple of [2^-52] below one, which generators of 52 and
    of 53 random bits both return, and draws that all have this value. *)
Definition below_one : Q := 1 - 2 ^ (-52).
Definition draws_top : rng := fun _ => below_one.

(** Draws that leave a margin of [2^-50] below one. *)
Definition margin01 (g : rng) : Prop :=
  forall i, 0 <= g i /\ g i <= 1 - 2 ^ (-50).

(** The second site of the configuration. *)
Definition site_alki : Site.t :=
  {| Site.id := "PS-ALKI"; Site.name := "Alki Cove";
     Site.lat := lit 47.576; Site.lon := lit (-122.413); Site.depth_m := 5 |}.

(** The clock readings of [n] firings of the five-second timer after [t0]. *)
Fixpoint timerTicks (t0 : Z) (n : nat) : list Z :=
  match n with
  | O => []
  | S n' => (t0 + 5000)%Z :: timerTicks (t0 + 5000) n'
  end.

(** The first site of the configuration. *)
Definition site_edmonds : Site.t :=
  {| Site.id := "PS-EDMONDS"; Site.name := "Edmonds Nearshore";
     Site.lat := lit 47.812; Site.lon := lit (-122.377); Site.depth_m := 4 |}.

(** A reading with temp = 25 and do = 3, both critical under the default
    table, sal = 22 and every other parameter normal. *)
Definition reading_two_crit : Reading :=
  {| ts := 1700000000000; temp := 25; sal := 22; ph := 8; do := 3; turb := 10;
     chl := 3; gene_expr := 20; methyl := lit 0.4; metabo := 20;
     lipid_ox := lit 0.25 |}.

(* ===================================================================== *)
(** * Part II: properties *)
(* ===================================================================== *)

(** ** Rounding is monotone *)

Section Rounding.

Lemma Qpow2_pos z : 0 < 2 ^ z.
Proof. apply Qpower_0_lt. reflexivity. Qed.

Lemma Qpow2_le a b : (a <= b)%Z -> 2 ^ a <= 2 ^ b.
Proof. intros H. apply Qpower_le_compat_l; [exact H | discriminate]. Qed.

Lemma Qpow2_plus a b : 2 ^ (a + b) == 2 ^ a * 2 ^ b.
Proof. apply Qpower_plus. discriminate. Qed.

Lemma Zpow2_Q n : (0 <= n)%Z -> inject_Z (2 ^ n) == 2 ^ n.
Proof. intros H. now rewrite Zpower_Qpower. Qed.

Lemma rne_floor x : (Qfloor x <= rne x <= Qfloor x + 1)%Z.
Proof.
  unfold rne. destruct (Qcompare _ _); [destruct (Z.even _)|..]; lia.
Qed.

Lemma rne_Z n : rne (inject_Z n) = n.
Proof.
  unfold rne. rewrite Qfloor_Z.
  destruct (Qcompare_spec (inject_Z n - inject_Z n) (1 # 2)) as [E|_|G];
    [exfalso; lra | reflexivity | exfalso; lra].
Qed.

Lemma rne_mono x y : x <= y -> (rne x <= rne y)%Z.
Proof.
  intros Hxy.
  pose proof (Qfloor_resp_le _ _ Hxy) as Hf.
  destruct (Z.eq_dec (Qfloor x) (Qfloor y)) as [E|NE].
  - unfold rne. rewrite <- E.
    destruct (Qcompare_spec (x - inject_Z (Qfloor x)) (1 # 2)) as [Hx|Hx|Hx];
    destruct (Qcompare_spec (y - inject_Z (Qfloor x)) (1 # 2)) as [Hy|Hy|Hy];
      try destruct (Z.even (Qfloor x)); try lia; exfalso; lra.
  - pose proof (rne_floor x). pose proof (rne_floor y). lia.
Qed.

Lemma Zlog2_Q n : (0 < n)%Z ->
  2 ^ Z.log2 n <= inject_Z n /\ inject_Z n < 2 ^ (Z.log2 n + 1).
Proof.
  intros H. destruct (Z.log2_spec n H) as [L U].
  pose proof (Z.log2_nonneg n) as P.
  rewrite <- !Zpow2_Q by lia. rewrite <- Zle_Qle, <- Zlt_Qlt.
  split; [exact L | exact U].
Qed.

(** [ilog2] computes the binade. *)
Lemma ilog2_spec x : 0 < x -> 2 ^ ilog2 x <= x /\ x < 2 ^ (ilog2 x + 1).
Proof.
  intros Hx. destruct x as [n d].
  assert (Hn : (0 < n)%Z).
  { unfold Qlt in Hx. simpl in Hx. lia. }
  unfold ilog2. cbn [Qnum Qden].
  set (ln := Z.log2 n). set (ld := Z.log2 (Z.pos d)).
  destruct (Zlog2_Q n Hn) as [Ln Un]. fold ln in Ln, Un.
  destruct (Zlog2_Q (Z.pos d) eq_refl) as [Ld Ud]. fold ld in Ld, Ud.
  assert (HD : 0 < inject_Z (Z.pos d)) by reflexivity.
  assert (E : n # d == inject_Z n / inject_Z (Z.pos d)) by apply Qmake_Qdiv.
  assert (Lo : 2 ^ (ln - ld - 1) <= n # d).
  { rewrite E. apply Qle_shift_div_l; [exact HD|].
    assert (K : 2 ^ (ln - ld - 1) * 2 ^ (ld + 1) == 2 ^ ln).
    { rewrite <- Qpow2_plus. now replace (ln - ld - 1 + (ld + 1))%Z with ln by lia. }
    pose proof (Qpow2_pos (ln - ld - 1)). nra. }
  assert (Hi : n # d < 2 ^ (ln - ld + 1)).
  { rewrite E. apply Qlt_shift_div_r; [exact HD|].
    assert (K : 2 ^ (ln - ld + 1) * 2 ^ ld == 2 ^ (ln + 1)).
    { rewrite <- Qpow2_plus. now replace (ln - ld + 1 + ld)%Z with (ln + 1)%Z by lia. }
    pose proof (Qpow2_pos (ln - ld + 1)). nra. }
  destruct (Qle_bool (2 ^ (ln - ld)) (n # d)) eqn:T.
  - apply Qle_bool_iff in T. split; [exact T | exact Hi].
  - split.
    + exact Lo.
    + replace (ln - ld - 1 + 1)%Z with (ln - ld)%Z by lia.
      apply Qnot_le_lt. intros C. apply Qle_bool_iff in C. congruence.
Qed.

Lemma ilog2_mono x y : 0 < x -> x <= y -> (ilog2 x <= ilog2 y)%Z.
Proof.
  intros Hx Hxy.
  assert (Hy : 0 < y) by lra.
  destruct (ilog2_spec x Hx) as [Lx _]. destruct (ilog2_spec y Hy) as [_ Uy].
  destruct (Z_le_gt_dec (ilog2 x) (ilog2 y)) as [H|H]; [exact H|exfalso].
  pose proof (Qpow2_le (ilog2 y + 1) (ilog2 x) ltac:(lia)). lra.
Qed.

Lemma ulp_pos x : 0 < ulp x.
Proof. apply Qpow2_pos. Qed.

Lemma fl_pos_eq x : fl_pos x == inject_Z (rne (x / ulp x)) * ulp x.
Proof. apply Qred_correct. Qed.

Lemma fl_pos_nonneg x : 0 <= x -> 0 <= fl_pos x.
Proof.
  intros Hx. rewrite fl_pos_eq.
  pose proof (ulp_pos x) as U.
  assert (0 <= x / ulp x) as D by (apply Qle_shift_div_l; [exact U | lra]).
  apply rne_mono in D. change (rne 0) with (rne (inject_Z 0)) in D.
  rewrite rne_Z in D.
  apply Qmult_le_0_compat; [|lra].
  change 0 with (inject_Z 0). now rewrite <- Zle_Qle.
Qed.

(** Within one binade the scaled mantissas are rounded by [rne]; across
    binades the power of two between them separates the results. *)
Lemma fl_pos_mono x y : 0 < x -> x <= y -> fl_pos x <= fl_pos y.
Proof.
  intros Hx Hxy. assert (Hy : 0 < y) by lra.
  rewrite !fl_pos_eq.
  pose proof (ilog2_mono x y Hx Hxy) as He.
  pose proof (ulp_pos x) as Ux. pose proof (ulp_pos y) as Uy.
  destruct (Z.eq_dec (Z.max (ilog2 x) (-1022)) (Z.max (ilog2 y) (-1022))) as [E|NE].
  - assert (EU : ulp y = ulp x) by (unfold ulp; now rewrite E).
    rewrite EU. apply Qmult_le_compat_r; [|lra].
    rewrite <- Zle_Qle. apply rne_mono.
    apply Qle_shift_div_l; [exact Ux|].
    assert (K : x / ulp x * ulp x == x) by (field; lra). lra.
  - set (ex := Z.max (ilog2 x) (-1022)) in *.
    assert (Ey : Z.max (ilog2 y) (-1022) = ilog2 y) by lia.
    assert (Hlt : (ex + 1 <= ilog2 y)%Z) by lia.
    destruct (ilog2_spec x Hx) as [_ Hxu]. destruct (ilog2_spec y Hy) as [Hyl _].
    apply Qle_trans with (2 ^ (ex + 1)).
    + assert (B : x / ulp x <= inject_Z (2 ^ 53)).
      { apply Qle_shift_div_r; [exact Ux|].
        rewrite Zpow2_Q by lia. unfold ulp. fold ex. rewrite <- Qpow2_plus.
        replace (53 + (ex - 52))%Z with (ex + 1)%Z by lia.
        pose proof (Qpow2_le (ilog2 x + 1) (ex + 1) ltac:(lia)). lra. }
      apply rne_mono in B. rewrite rne_Z in B.
      rewrite Zle_Qle in B. rewrite Zpow2_Q in B by lia.
      assert (K : 2 ^ 53 * ulp x == 2 ^ (ex + 1)).
      { unfold ulp. fold ex. rewrite <- Qpow2_plus.
        now replace (53 + (ex - 52))%Z with (ex + 1)%Z by lia. }
      nra.
    + apply Qle_trans with (2 ^ ilog2 y); [now apply Qpow2_le|].
      assert (B : inject_Z (2 ^ 52) <= y / ulp y).
      { apply Qle_shift_div_l; [exact Uy|].
        rewrite Zpow2_Q by lia. unfold ulp. rewrite Ey, <- Qpow2_plus.
        now replace (52 + (ilog2 y - 52))%Z with (ilog2 y) by lia. }
      apply rne_mono in B. rewrite rne_Z in B.
      rewrite Zle_Qle in B. rewrite Zpow2_Q in B by lia.
      assert (K : 2 ^ 52 * ulp y == 2 ^ ilog2 y).
      { unfold ulp. rewrite Ey, <- Qpow2_plus.
        now replace (52 + (ilog2 y - 52))%Z with (ilog2 y) by lia. }
      nra.
Qed.

Lemma fl_mono x y : x <= y -> fl x <= fl y.
Proof.
  intros Hxy. destruct x as [nx dx], y as [ny dy]. unfold fl. cbn [Qnum].
  assert (Hc : (nx * Z.pos dy <= ny * Z.pos dx)%Z) by exact Hxy.
  destruct nx as [|px|px], ny as [|py|py]; try (exfalso; lia).
  - apply Qle_refl.
  - apply fl_pos_nonneg. discriminate.
  - apply fl_pos_mono; [reflexivity | exact Hxy].
  - assert (0 <= fl_pos (- (Z.neg px # dx))) by (apply fl_pos_nonneg; discriminate).
    lra.
  - assert (0 <= fl_pos (- (Z.neg px # dx))) by (apply fl_pos_nonneg; discriminate).
    assert (0 <= fl_pos (Z.pos py # dy)) by (apply fl_pos_nonneg; discriminate).
    lra.
  - assert (fl_pos (- (Z.neg py # dy)) <= fl_pos (- (Z.neg px # dx))).
    { apply fl_pos_mono; [reflexivity | lra]. }
    lra.
Qed.

Lemma fadd_mono a b c d : a <= c -> b <= d -> fadd a b <= fadd c d.
Proof. intros. apply fl_mono. lra. Qed.

Lemma fsub_mono a b c d : a <= c -> d <= b -> fsub a b <= fsub c d.
Proof. intros. apply fl_mono. lra. Qed.

(** Multiplication by a non-negative constant on the right. *)
Lemma fmul_mono_r a b c : 0 <= c -> a <= b -> fmul a c <= fmul b c.
Proof. intros. apply fl_mono. nra. Qed.

End Rounding.

(** ** Agreement with the kernel's binary64 arithmetic

    The literals of the source and the seeded values for the largest draw
    below one, computed with the primitive floating-point numbers of the
    kernel, denote the rationals that [lit], [fadd], [fsub] and [fmul]
    compute. *)

#[local] Set Warnings "-inexact-float".

Example binary64_literals :
  List.map float_value
    [7.7; 7.6; 0.55; 0.7; 0.35; 7.8; 0.2; 0.4; 0.1; 0.25; 0.3; 0.05; 7.3; 8.3;
     0.03; 19.9; 6.1; 7.8456; 0.4567]%float
  = List.map (fun q => Some (lit q))
    [7.7; 7.6; 0.55; 0.7; 0.35; 7.8; 0.2; 0.4; 0.1; 0.25; 0.3; 0.05; 7.3; 8.3;
     0.03; 19.9; 6.1; 7.8456; 0.4567].
Proof. vm_compute. reflexivity. Qed.

Example binary64_seeded :
  let u := 0x1.ffffffffffffep-1%float in
  float_value u = Some below_one /\
  List.map float_value
    [16 + u * 4; 28 + u * 3; 7.8 + u * 0.2; 7 + u * 2; 10 + u * 25; 3 + u * 10;
     20 + u * 20; 0.4 + u * 0.1; 20 + u * 20; 0.25 + u * 0.1]%float
  = List.map (fun k => Some (field k (fst (generateSeeded 0 draws_top 0%nat)))) keys.
Proof. split; vm_compute; reflexivity. Qed.

Example binary64_walk :
  let u := 0x1.8p-3%float in
  List.map float_value
    [25.9 + (u - 0.5) * 0.3; 7.31 + (u - 0.5) * 0.05; 0.5 + (u - 0.5) * 0.03]%float
  = [Some (fadd (lit 25.9) (noise (3 # 16) (lit 0.3)));
     Some (fadd (lit 7.31) (noise (3 # 16) (lit 0.05)));
     Some (fadd (1 # 2) (noise (3 # 16) (lit 0.03)))].
Proof. vm_compute. reflexivity. Qed.

#[local] Set Warnings "+inexact-float".

(** ** [Math.min], [Math.max] and the comparisons *)

Lemma Qle_bool_false x y : Qle_bool x y = false <-> y < x.
Proof.
  rewrite <- not_true_iff_false, Qle_bool_iff. split.
  - apply Qnot_le_lt.
  - apply Qlt_not_le.
Qed.

(** Case analysis on every comparison of the goal. *)
Ltac qcases :=
  repeat match goal with
  | |- context [Qle_bool ?a ?b] =>
      let E := fresh "E" in
      destruct (Qle_bool a b) eqn:E;
      [apply Qle_bool_iff in E | apply Qle_bool_false in E]
  end.

Lemma clamp_range lo hi x :
  lo <= hi -> lo <= Math_max lo (Math_min hi x) /\ Math_max lo (Math_min hi x) <= hi.
Proof. intros H. unfold Math_max, Math_min. qcases; split; lra. Qed.

(** ** The classifier *)

(** C2: [classifyAlert] compares the value with the critical level first,
    then with the warning level, upwards for direction [over] and downwards
    for direction [under]; any other value is [ok].  At the boundaries of
    the table entries [over, warn 20, crit 24] (temp) and
    [under, warn 6.0, crit 4.0] (do): 19.9 is ok, 20.0 warning, 24.0
    critical, and 6.1 is ok, 6.0 warning, 4.0 critical. *)
Theorem classifyAlert_spec (T : Thresholds) (k : ParamKey) (v : Q) :
  (dir (T k) = Dir.over ->
     (crit (T k) <= v -> classifyAlert T k v = Level.crit) /\
     (~ crit (T k) <= v -> warn (T k) <= v -> classifyAlert T k v = Level.warn) /\
     (~ crit (T k) <= v -> ~ warn (T k) <= v -> classifyAlert T k v = Level.ok)) /\
  (dir (T k) = Dir.under ->
     (v <= crit (T k) -> classifyAlert T k v = Level.crit) /\
     (~ v <= crit (T k) -> v <= warn (T k) -> classifyAlert T k v = Level.warn) /\
     (~ v <= crit (T k) -> ~ v <= warn (T k) -> classifyAlert T k v = Level.ok)) /\
  (THRESHOLDS Ktemp = {| warn := 20; crit := 24; dir := Dir.over |} /\
   classifyAlert THRESHOLDS Ktemp (lit 19.9) = Level.ok /\
   classifyAlert THRESHOLDS Ktemp (lit 20.0) = Level.warn /\
   classifyAlert THRESHOLDS Ktemp (lit 24.0) = Level.crit) /\
  (THRESHOLDS Kdo = {| warn := lit 6.0; crit := lit 4.0; dir := Dir.under |} /\
   classifyAlert THRESHOLDS Kdo (lit 6.1) = Level.ok /\
   classifyAlert THRESHOLDS Kdo (lit 6.0) = Level.warn /\
   classifyAlert THRESHOLDS Kdo (lit 4.0) = Level.crit).
Proof.
  split; [|split; [|split]].
  - unfold classifyAlert. destruct (T k) as [w c d]. cbn [dir warn crit].
    intros ->. repeat split; intros; qcases; try reflexivity; exfalso; lra.
  - unfold classifyAlert. destruct (T k) as [w c d]. cbn [dir warn crit].
    intros ->. repeat split; intros; qcases; try reflexivity; exfalso; lra.
  - repeat split; vm_compute; reflexivity.
  - repeat split; vm_compute; reflexivity.
Qed.

(** The entries used above are inhabited: the temp entry has direction
    [over] and the value 25 reaches its critical level. *)
Lemma classifyAlert_spec_witness :
  dir (THRESHOLDS Ktemp) = Dir.over /\ crit (THRESHOLDS Ktemp) <= 25 /\
  classifyAlert THRESHOLDS Ktemp 25 = Level.crit.
Proof.
  split; [reflexivity|]. split; [discriminate|].
  destruct (classifyAlert_spec THRESHOLDS Ktemp 25) as [Hover _].
  destruct (Hover eq_refl) as [Hcrit _].
  apply Hcrit. discriminate.
Defined.

(** C9: the severity is monotone in the value, whatever the warning and
    critical levels are: non-decreasing for direction [over],
    non-increasing for direction [under]. *)
Theorem classifyAlert_monotone (T : Thresholds) (k : ParamKey) (v1 v2 : Q) :
  v1 <= v2 ->
  (dir (T k) = Dir.over ->
     Level.le (classifyAlert T k v1) (classifyAlert T k v2)) /\
  (dir (T k) = Dir.under ->
     Level.le (classifyAlert T k v2) (classifyAlert T k v1)).
Proof.
  intros Hv. unfold classifyAlert. destruct (T k) as [w c d]. cbn [dir].
  split; intros ->; qcases; unfold Level.le; cbn [Level.rank];
    try lia; exfalso; lra.
Qed.

Lemma classifyAlert_monotone_witness :
  21 <= 25 /\
  Level.le (classifyAlert inverted Ktemp 21) (classifyAlert inverted Ktemp 25).
Proof.
  split; [discriminate|].
  destruct (classifyAlert_monotone inverted Ktemp 21 25) as [Hover _];
    [discriminate|].
  exact (Hover eq_refl).
Defined.

(** ** The generator *)

Lemma tick_eq prev t g i :
  tick prev t g i =
  ({| ts := t;
      temp := clamp (fadd (temp prev) (noise (g i) (lit 0.3))) 8 26;
      sal := clamp (fadd (sal prev) (noise (g (i + 1)%nat) (lit 0.3))) 10 33;
      ph := clamp (fadd (ph prev) (noise (g (i + 2)%nat) (lit 0.05))) (lit 7.3) (lit 8.3);
      do := clamp (fadd (do prev) (noise (g (i + 3)%nat) (lit 0.4))) (3 # 2) 12;
      turb := clamp (fadd (turb prev) (noise (g (i + 4)%nat) 6)) 1 300;
      chl := clamp (fadd (chl prev) (noise (g (i + 5)%nat) 3)) (lit 0.1) 120;
      gene_expr := clamp (fadd (gene_expr prev) (noise (g (i + 6)%nat) 4)) 0 100;
      methyl := clamp (fadd (methyl prev) (noise (g (i + 7)%nat) (lit 0.03))) 0 1;
      metabo := clamp (fadd (metabo prev) (noise (g (i + 8)%nat) 5)) 0 100;
      lipid_ox := clamp (fadd (lipid_ox prev) (noise (g (i + 9)%nat) (lit 0.03))) 0 1 |},
   (i + 10)%nat).
Proof.
  replace (i + 1)%nat with (S i) by lia.
  replace (i + 2)%nat with (S (S i)) by lia.
  replace (i + 3)%nat with (S (S (S i))) by lia.
  replace (i + 4)%nat with (S (S (S (S i)))) by lia.
  replace (i + 5)%nat with (S (S (S (S (S i))))) by lia.
  replace (i + 6)%nat with (S (S (S (S (S (S i)))))) by lia.
  replace (i + 7)%nat with (S (S (S (S (S (S (S i))))))) by lia.
  replace (i + 8)%nat with (S (S (S (S (S (S (S (S i)))))))) by lia.
  replace (i + 9)%nat with (S (S (S (S (S (S (S (S (S i))))))))) by lia.
  replace (i + 10)%nat with (S (S (S (S (S (S (S (S (S (S i)))))))))) by lia.
  reflexivity.
Qed.

(** Goals between concrete numbers are decided by evaluation. *)
Ltac qcompute :=
  lazymatch goal with
  | |- _ <= _ => apply Qle_bool_iff; vm_compute; reflexivity
  | |- _ < _ => apply Qle_bool_false; vm_compute; reflexivity
  | |- _ == _ => apply Qeq_bool_iff; vm_compute; reflexivity
  end.

Lemma walk_bounds k : lower k <= upper k.
Proof. destruct k; qcompute. Qed.

Lemma tick_field prev t g i k :
  field k (fst (tick prev t g i)) =
  clamp (fadd (field k prev) (noise (g (i + index k)%nat) (stepSize k)))
        (lower k) (upper k).
Proof.
  rewrite tick_eq. destruct k; cbn [fst field index]; try reflexivity.
  now rewrite Nat.add_0_r.
Qed.

Lemma tick_snd prev t g i : snd (tick prev t g i) = (i + 10)%nat.
Proof. now rewrite tick_eq. Qed.

Lemma tick_ts prev t g i : ts (fst (tick prev t g i)) = t.
Proof. now rewrite tick_eq. Qed.

Lemma tick_range prev t g i : in_range (fst (tick prev t g i)).
Proof.
  intros k. rewrite tick_field. apply clamp_range, walk_bounds.
Qed.

(** The perturbation of one step stays within half the step size. *)
Lemma noise_bound_gen s u :
  0 <= s -> fl ((1 # 2) * s) == (1 # 2) * s -> fl (- (1 # 2) * s) == - (1 # 2) * s ->
  0 <= u -> u < 1 ->
  - (s / 2) <= noise u s /\ noise u s <= s / 2.
Proof.
  intros Hs Hup Hlo H0 H1. unfold noise, fmul, fsub.
  assert (L : fl (- (1 # 2)) <= fl (u - (1 # 2))) by (apply fl_mono; lra).
  assert (U : fl (u - (1 # 2)) <= fl (1 # 2)) by (apply fl_mono; lra).
  change (fl (- (1 # 2))) with (- (1 # 2)) in L.
  change (fl (1 # 2)) with (1 # 2) in U.
  split.
  - assert (E : - (s / 2) == - (1 # 2) * s) by field.
    rewrite E, <- Hlo. apply fl_mono. nra.
  - assert (E : s / 2 == (1 # 2) * s) by field.
    rewrite E, <- Hup. apply fl_mono. nra.
Qed.

Lemma noise_bound k u :
  0 <= u -> u < 1 ->
  - (stepSize k / 2) <= noise u (stepSize k) /\ noise u (stepSize k) <= stepSize k / 2.
Proof.
  apply noise_bound_gen; destruct k; qcompute.
Qed.

Lemma ticks_range tss : forall prev g i, Forall in_range (fst (ticks tss prev g i)).
Proof.
  induction tss as [|t tss IH]; intros prev g i; cbn [ticks].
  - constructor.
  - unfold mbind, Rand_bind, mret, Rand_ret.
    destruct (tick prev t g i) as [r j] eqn:Et.
    specialize (IH r g j). destruct (ticks tss r g j) as [rs j'].
    cbn [fst] in *. constructor; [|exact IH].
    change r with (fst (r, j)). rewrite <- Et. apply tick_range.
Qed.

(** C3: whatever the previous reading, the timestamp and the draws, every
    field of the reading [tick] returns is within the closed range of its
    parameter, and so is every reading of any number of successive [tick]
    calls; each field is [clamp(previous + noise, min, max)], where the
    noise drawn from a uniform [u] of [[0, 1)] lies between minus and plus
    half the step size; the timestamp is the one passed in. *)
Theorem tick_clamped (prev : Reading) (t : Z) (g : rng) (i : nat) :
  let r := fst (tick prev t g i) in
  in_range r /\
  (forall tss, Forall in_range (fst (ticks tss prev g i))) /\
  (forall k, field k r =
     clamp (fadd (field k prev) (noise (g (i + index k)%nat) (stepSize k)))
           (lower k) (upper k)) /\
  (uniform01 g -> forall k,
     - (stepSize k / 2) <= noise (g (i + index k)%nat) (stepSize k) /\
     noise (g (i + index k)%nat) (stepSize k) <= stepSize k / 2) /\
  ts r = t /\
  (lower Ktemp = 8 /\ upper Ktemp = 26) /\
  (lower Kph = lit 7.3 /\ upper Kph = lit 8.3) /\
  (lower Kmethyl = 0 /\ upper Kmethyl = 1).
Proof.
  cbv zeta. split; [apply tick_range|].
  split; [intros tss; apply ticks_range|].
  split; [intros k; apply tick_field|].
  split; [intros Hg k; apply noise_bound; apply Hg|].
  split; [apply tick_ts|].
  repeat split.
Qed.

Lemma tick_clamped_witness :
  uniform01 draws_half /\
  in_range (fst (tick reading_far 1700000000000 draws_half 0%nat)) /\
  noise (draws_half 2%nat) (stepSize Kph) <= stepSize Kph / 2.
Proof.
  assert (Hg : uniform01 draws_half) by (intros i; split; [discriminate | reflexivity]).
  split; [exact Hg|].
  destruct (tick_clamped reading_far 1700000000000 draws_half 0%nat)
    as (Hr & _ & _ & Hn & _).
  split; [exact Hr|]. apply (Hn Hg Kph).
Defined.

Lemma generateSeeded_eq start g i :
  generateSeeded start g i =
  ({| ts := start;
      temp := fadd 16 (fmul (g i) 4);
      sal := fadd 28 (fmul (g (i + 1)%nat) 3);
      ph := fadd (lit 7.8) (fmul (g (i + 2)%nat) (lit 0.2));
      do := fadd 7 (fmul (g (i + 3)%nat) 2);
      turb := fadd 10 (fmul (g (i + 4)%nat) 25);
      chl := fadd 3 (fmul (g (i + 5)%nat) 10);
      gene_expr := fadd 20 (fmul (g (i + 6)%nat) 20);
      methyl := fadd (lit 0.4) (fmul (g (i + 7)%nat) (lit 0.1));
      metabo := fadd 20 (fmul (g (i + 8)%nat) 20);
      lipid_ox := fadd (lit 0.25) (fmul (g (i + 9)%nat) (lit 0.1)) |},
   (i + 10)%nat).
Proof.
  replace (i + 1)%nat with (S i) by lia.
  replace (i + 2)%nat with (S (S i)) by lia.
  replace (i + 3)%nat with (S (S (S i))) by lia.
  replace (i + 4)%nat with (S (S (S (S i)))) by lia.
  replace (i + 5)%nat with (S (S (S (S (S i))))) by lia.
  replace (i + 6)%nat with (S (S (S (S (S (S i)))))) by lia.
  replace (i + 7)%nat with (S (S (S (S (S (S (S i))))))) by lia.
  replace (i + 8)%nat with (S (S (S (S (S (S (S (S i)))))))) by lia.
  replace (i + 9)%nat with (S (S (S (S (S (S (S (S (S i))))))))) by lia.
  replace (i + 10)%nat with (S (S (S (S (S (S (S (S (S (S i)))))))))) by lia.
  reflexivity.
Qed.

(** A seeded value [base + u * span] grows with the draw. *)
Lemma seed_value_mono base span a u b :
  0 <= span -> a <= u -> u <= b ->
  fadd base (fmul a span) <= fadd base (fmul u span) /\
  fadd base (fmul u span) <= fadd base (fmul b span).
Proof.
  intros Hs Ha Hb.
  split; apply fadd_mono; try apply Qle_refl; apply fmul_mono_r; assumption.
Qed.

Lemma classify_over_ok T k v :
  dir (T k) = Dir.over -> v < warn (T k) -> v < crit (T k) ->
  classifyAlert T k v = Level.ok.
Proof.
  unfold classifyAlert. destruct (T k) as [w c d]. cbn [dir warn crit].
  intros -> Hw Hc. qcases; try reflexivity; exfalso; lra.
Qed.

Lemma classify_under_ok T k v :
  dir (T k) = Dir.under -> warn (T k) < v -> crit (T k) < v ->
  classifyAlert T k v = Level.ok.
Proof.
  unfold classifyAlert. destruct (T k) as [w c d]. cbn [dir warn crit].
  intros -> Hw Hc. qcases; try reflexivity; exfalso; lra.
Qed.

Lemma classify_over_not_crit T k v :
  dir (T k) = Dir.over -> v < crit (T k) -> classifyAlert T k v <> Level.crit.
Proof.
  unfold classifyAlert. destruct (T k) as [w c d]. cbn [dir warn crit].
  intros -> Hc. qcases; try discriminate; exfalso; lra.
Qed.

(** The seeded value of parameter [k] for the draw [u]. *)
Lemma seeded_field start g i k :
  exists base span,
    field k (fst (generateSeeded start g i)) = fadd base (fmul (g (i + index k)%nat) span)
    /\ 0 <= span
    /\ (dir (THRESHOLDS k) = Dir.over ->
          fadd base (fmul (1 - 2 ^ (-50)) span) < warn (THRESHOLDS k) /\
          fadd base (fmul (1 - 2 ^ (-50)) span) < crit (THRESHOLDS k) /\
          fadd base (fmul 1 span) < crit (THRESHOLDS k))
    /\ (dir (THRESHOLDS k) = Dir.under ->
          warn (THRESHOLDS k) < fadd base (fmul 0 span) /\
          crit (THRESHOLDS k) < fadd base (fmul 0 span)).
Proof.
  rewrite generateSeeded_eq.
  destruct k; cbn [fst field index]; rewrite ?Nat.add_0_r;
    eexists _, _; (split; [reflexivity|]);
    (split; [qcompute|]); (split; [intros D|intros D]);
    try discriminate D; repeat split; qcompute.
Qed.

Lemma alerts_all_ok T r :
  (forall k, classifyAlert T k (field k r) = Level.ok) -> alerts T (Some r) = [].
Proof.
  intros H. unfold alerts, classified, keys. cbn [List.map List.filter level].
  rewrite !H. reflexivity.
Qed.

(** C8, as the code has it: a reading seeded from draws that stay
    [2^-50] below one classifies as ok in every parameter under the default
    table, and has no active alert; for any draws of [[0, 1)] no parameter
    of a seeded reading classifies as critical.  (Closer to one, rounding
    takes the seeded temp, gene_expr and lipid_ox onto their warning
    levels.) *)
Theorem seeded_reading_ok (start : Z) (g : rng) (i : nat) :
  let r := fst (generateSeeded start g i) in
  (margin01 g ->
     (forall k, classifyAlert THRESHOLDS k (field k r) = Level.ok) /\
     alerts THRESHOLDS (Some r) = []) /\
  (uniform01 g ->
     forall k, classifyAlert THRESHOLDS k (field k r) <> Level.crit).
Proof.
  cbv zeta. split.
  - intros Hg.
    assert (Hok : forall k,
      classifyAlert THRESHOLDS k (field k (fst (generateSeeded start g i))) = Level.ok).
    { intros k.
      destruct (seeded_field start g i k) as (base & span & -> & Hs & Hover & Hunder).
      destruct (Hg (i + index k)%nat) as [H0 H1].
      destruct (seed_value_mono base span 0 (g (i + index k)%nat) (1 - 2 ^ (-50)) Hs H0 H1)
        as [Hlo Hhi].
      destruct (dir (THRESHOLDS k)) eqn:D.
      - destruct (Hover eq_refl) as (Hw & Hc & _).
        apply classify_over_ok; [exact D | lra | lra].
      - destruct (Hunder eq_refl) as (Hw & Hc).
        apply classify_under_ok; [exact D | lra | lra]. }
    split; [exact Hok | now apply alerts_all_ok].
  - intros Hg k.
    destruct (seeded_field start g i k) as (base & span & -> & Hs & Hover & Hunder).
    destruct (Hg (i + index k)%nat) as [H0 H1].
    assert (H1' : g (i + index k)%nat <= 1) by lra.
    destruct (seed_value_mono base span 0 (g (i + index k)%nat) 1 Hs H0 H1')
      as [Hlo Hhi].
    destruct (dir (THRESHOLDS k)) eqn:D.
    + destruct (Hover eq_refl) as (_ & _ & Hc).
      apply classify_over_not_crit; [exact D | lra].
    + destruct (Hunder eq_refl) as (Hw & Hc).
      rewrite classify_under_ok; [discriminate | exact D | lra | lra].
Qed.

Lemma seeded_reading_ok_witness :
  margin01 draws_half /\
  alerts THRESHOLDS (Some (fst (generateSeeded 1700000000000 draws_half 0%nat))) = [].
Proof.
  assert (Hg : margin01 draws_half).
  { intros i. split; [discriminate | qcompute]. }
  split; [exact Hg|].
  destruct (seeded_reading_ok 1700000000000 draws_half 0%nat) as [H _].
  apply (H Hg).
Defined.

(** C8 fails as stated: with every draw equal to [1 - 2^-52], a value of
    [[0, 1)], the seeded temperature is [16 + u * 4 = 20] after rounding,
    which is the warning level, and the seeded reading has three alerts. *)
Lemma seeded_reading_warns :
  uniform01 draws_top /\
  temp (fst (generateSeeded 0 draws_top 0%nat)) == 20 /\
  classifyAlert THRESHOLDS Ktemp (temp (fst (generateSeeded 0 draws_top 0%nat)))
    = Level.warn /\
  List.map key (alerts THRESHOLDS (Some (fst (generateSeeded 0 draws_top 0%nat))))
    = [Ktemp; Kgene_expr; Klipid_ox].
Proof.
  split; [intros i; split; qcompute|].
  repeat split; vm_compute; reflexivity.
Qed.

(** ** The series buffer *)

Lemma ticks_ts tss : forall prev g i, List.map ts (fst (ticks tss prev g i)) = tss.
Proof.
  induction tss as [|t tss IH]; intros prev g i; cbn [ticks]; [reflexivity|].
  unfold mbind, Rand_bind, mret, Rand_ret.
  destruct (tick prev t g i) as [r j] eqn:Et.
  specialize (IH r g j). destruct (ticks tss r g j) as [rs j'].
  cbn [fst List.map] in *. f_equal; [|exact IH].
  change r with (fst (r, j)). rewrite <- Et. apply tick_ts.
Qed.

Lemma ticks_snd tss : forall prev g i,
  snd (ticks tss prev g i) = (i + 10 * length tss)%nat.
Proof.
  induction tss as [|t tss IH]; intros prev g i; cbn [ticks].
  - cbn. lia.
  - unfold mbind, Rand_bind, mret, Rand_ret.
    destruct (tick prev t g i) as [r j] eqn:Et.
    specialize (IH r g j). destruct (ticks tss r g j) as [rs j'].
    pose proof (tick_snd prev t g i) as Hj. rewrite Et in Hj.
    cbn [snd length] in *. lia.
Qed.

Lemma stamps_length t n : length (stamps t n) = n.
Proof. revert t. induction n as [|n IH]; intros t; cbn; [reflexivity|]. now rewrite IH. Qed.

Lemma stamps_lower t n : Forall (fun x => (t <= x)%Z) (stamps t n).
Proof.
  revert t. induction n as [|n IH]; intros t; cbn [stamps]; constructor; [lia|].
  eapply Forall_impl; [apply IH|]. cbn. intros; lia.
Qed.

Lemma stamps_sorted t n : StronglySorted Z.lt (stamps t n).
Proof.
  revert t. induction n as [|n IH]; intros t; cbn [stamps]; constructor.
  - apply IH.
  - eapply Forall_impl; [apply stamps_lower|]. cbn. intros; lia.
Qed.

(** The backfill loop runs once per timestamp up to [now] and stops. *)
Lemma backfill_ticks now n : forall fuel t r rows g i,
  (n < fuel)%nat ->
  (t + 300000 * (Z.of_nat n - 1) <= now < t + 300000 * Z.of_nat n)%Z ->
  backfill fuel now t r rows g i =
  (Some (rows ++ fst (ticks (stamps t n) r g i)), snd (ticks (stamps t n) r g i)).
Proof.
  induction n as [|n IH]; intros fuel t r rows g i Hf Ht;
    (destruct fuel as [|fuel]; [lia|]); cbn [backfill stamps ticks].
  - destruct (Z.leb_spec t now); [lia|]. cbn. now rewrite app_nil_r.
  - destruct (Z.leb_spec t now); [|lia].
    unfold mbind, Rand_bind, mret, Rand_ret.
    destruct (tick r t g i) as [r' j].
    rewrite IH by lia.
    destruct (ticks (stamps (t + 300000) n) r' g j) as [rs j'].
    cbn [fst snd]. now rewrite <- app_assoc.
Qed.

Lemma seedRows_eq fuel now g i :
  (38 <= fuel)%nat ->
  seedRows fuel now g i =
  (Some (fst (ticks (stamps (now - 3 * 3600000) 37)
                 (fst (generateSeeded (now - 3 * 3600000) g i)) g (i + 10)%nat)),
   (i + 380)%nat).
Proof.
  intros Hf. unfold seedRows, mbind, Rand_bind.
  rewrite generateSeeded_eq. cbn [fst].
  rewrite (backfill_ticks now 37) by lia.
  rewrite ticks_snd, stamps_length. cbn [app]. f_equal. lia.
Qed.

Lemma seedRows_history fuel now g i :
  (38 <= fuel)%nat ->
  exists rows, seedRows fuel now g i = (Some rows, (i + 380)%nat) /\
               seeded_history now rows.
Proof.
  intros Hf. rewrite seedRows_eq by exact Hf.
  eexists. split; [reflexivity|].
  assert (Hts := ticks_ts (stamps (now - 3 * 3600000) 37)
                   (fst (generateSeeded (now - 3 * 3600000) g i)) g (i + 10)%nat).
  split; [|split; [|split]].
  - rewrite <- (length_map ts), Hts. apply stamps_length.
  - exact Hts.
  - rewrite Hts. apply stamps_sorted.
  - apply ticks_range.
Qed.

Lemma SITES_NoDup : NoDup (fmap Site.id SITES).
Proof. apply (bool_decide_unpack _). vm_compute. reflexivity. Qed.

Lemma seedSites_spec fuel clock sites : forall seed g i,
  (38 <= fuel)%nat -> NoDup (fmap Site.id sites) ->
  exists m, seedSites fuel clock sites seed g i = (Some m, (i + 380 * length sites)%nat) /\
    (forall id, id ∉ fmap Site.id sites -> m !! id = seed !! id) /\
    (forall site, site ∈ sites ->
       exists rows, m !! Site.id site = Some rows /\
                    seeded_history (clock (Site.id site)) rows).
Proof.
  induction sites as [|s sites IH]; intros seed g i Hf Hnd; cbn [seedSites].
  - exists seed. split; [cbn; f_equal; lia|]. split; [reflexivity|].
    intros site Hin. inversion Hin.
  - rewrite fmap_cons in Hnd. apply NoDup_cons in Hnd as [Hs Hnd].
    unfold mbind, Rand_bind.
    destruct (seedRows_history fuel (clock (Site.id s)) g i Hf) as (rows & -> & Hrows).
    destruct (IH (<[Site.id s := rows]> seed) g (i + 380)%nat Hf Hnd)
      as (m & -> & Hout & Hin).
    exists m. split; [cbn [length]; f_equal; lia|]. split.
    + intros id Hid. rewrite fmap_cons in Hid. apply not_elem_of_cons in Hid as [? ?].
      rewrite Hout by assumption. now rewrite lookup_insert_ne.
    + intros site Hsite. apply elem_of_cons in Hsite as [->|Hsite].
      * exists rows. split; [|exact Hrows].
        rewrite Hout by exact Hs. apply lookup_insert_eq.
      * now apply Hin.
Qed.

(** C5: with fuel for its 37 iterations the seeding effect completes, and
    for every site it stores exactly 37 readings whose timestamps run from
    three hours before the clock reading of that site to the clock reading
    in steps of five minutes, strictly increasing. *)
Theorem seedAll_history (fuel : nat) (clock : string -> Z) (g : rng) (i : nat) :
  (38 <= fuel)%nat ->
  exists seed, fst (seedAll fuel clock g i) = Some seed /\
    forall site, site ∈ SITES ->
      exists rows, seed !! Site.id site = Some rows /\
        length rows = 37%nat /\
        List.map ts rows = stamps (clock (Site.id site) - 3 * 3600000) 37 /\
        StronglySorted Z.lt (List.map ts rows).
Proof.
  intros Hf.
  destruct (seedSites_spec fuel clock SITES ∅ g i Hf SITES_NoDup) as (m & E & _ & Hin).
  exists m. unfold seedAll. rewrite E. split; [reflexivity|].
  intros site Hsite. destruct (Hin site Hsite) as (rows & Hl & Hlen & Hts & Hs & _).
  eauto.
Qed.

Lemma seedAll_history_witness :
  (38 <= 40)%nat /\
  exists seed, fst (seedAll 40 (fun _ => 1700000000000%Z) draws_half 0%nat) = Some seed /\
    forall site, site ∈ SITES ->
      exists rows, seed !! Site.id site = Some rows /\
        length rows = 37%nat /\
        List.map ts rows = stamps (1700000000000 - 3 * 3600000) 37 /\
        StronglySorted Z.lt (List.map ts rows).
Proof.
  split; [lia|].
  apply (seedAll_history 40 (fun _ => 1700000000000%Z) draws_half 0%nat). lia.
Defined.

(** One pass of the callback on the array of one site. *)
Lemma advanceRows_eq now arr g j :
  advanceRows now arr g j =
  match last arr with
  | Some r => (slice_last 240 arr ++ [fst (tick r now g j)], (j + 10)%nat)
  | None => (slice_last 240 arr
               ++ [fst (tick (fst (generateSeeded now g j)) now g (j + 10)%nat)],
             (j + 20)%nat)
  end.
Proof.
  unfold advanceRows, mbind, Rand_bind, mret, Rand_ret.
  destruct (last arr) as [r|].
  - pose proof (tick_snd r now g j) as Hs.
    destruct (tick r now g j) as [next j']. cbn [fst snd] in *. now subst j'.
  - rewrite generateSeeded_eq. cbn [fst].
    match goal with |- context [tick ?r now g ?k] =>
      pose proof (tick_snd r now g k) as Hs; destruct (tick r now g k) as [next j']
    end.
    cbn [fst snd] in *. subst j'. f_equal. lia.
Qed.

Lemma advanceRows_snd now arr g j :
  snd (advanceRows now arr g j) = (j + drawsFor arr)%nat.
Proof. rewrite advanceRows_eq. unfold drawsFor. now destruct (last arr). Qed.

Lemma slice_last_length {A} n (arr : list A) :
  length (slice_last n arr) = Nat.min (length arr) n.
Proof. unfold slice_last. rewrite length_drop. lia. Qed.

Lemma advanceRows_shape now arr g j :
  exists next, fst (advanceRows now arr g j) = slice_last 240 arr ++ [next] /\
               ts next = now /\ in_range next.
Proof.
  rewrite advanceRows_eq. destruct (last arr) as [r|]; cbn [fst];
    eexists; (split; [reflexivity|]); split; auto using tick_ts, tick_range.
Qed.

Lemma advanceRows_length now arr g j :
  length (fst (advanceRows now arr g j)) = (Nat.min (length arr) 240 + 1)%nat.
Proof.
  destruct (advanceRows_shape now arr g j) as (next & -> & _).
  rewrite length_app, slice_last_length. reflexivity.
Qed.

(** The array computed for a site depends on the draws only from the
    position at which its turn comes. *)
Lemma advanceRows_ext now arr g j g' j' :
  (forall n, g (j + n)%nat = g' (j' + n)%nat) ->
  fst (advanceRows now arr g j) = fst (advanceRows now arr g' j').
Proof.
  intros H. rewrite !advanceRows_eq.
  assert (H0 : g j = g' j') by (rewrite <- (Nat.add_0_r j), <- (Nat.add_0_r j'); apply H).
  destruct (last arr) as [r|]; cbn [fst]; rewrite !tick_eq, ?generateSeeded_eq;
    cbn [fst]; rewrite <- ?Nat.add_assoc, ?H, ?H0; reflexivity.
Qed.

Lemma drawsBefore_ext sites copy copy' id :
  (forall site, site ∈ sites -> copy' !! Site.id site = copy !! Site.id site) ->
  drawsBefore sites copy' id = drawsBefore sites copy id.
Proof.
  induction sites as [|s sites IH]; intros H; cbn [drawsBefore]; [reflexivity|].
  destruct (decide (Site.id s = id)); [reflexivity|].
  rewrite H by (apply elem_of_cons; now left).
  rewrite IH; [reflexivity|]. intros site Hs. apply H. apply elem_of_cons. now right.
Qed.

(** The loop over the sites: an entry of a site that the loop does not
    visit is kept, and the entry of a visited site is what [advanceRows]
    computes from the previous entry of that same site. *)
Lemma forSites_lookup now sites : forall copy g i,
  NoDup (fmap Site.id sites) ->
  (forall id, id ∉ fmap Site.id sites ->
     fst (forSites now sites copy g i) !! id = copy !! id) /\
  (forall site, site ∈ sites ->
     fst (forSites now sites copy g i) !! Site.id site =
     Some (fst (advanceRows now (default [] (copy !! Site.id site)) g
                  (i + drawsBefore sites copy (Site.id site))%nat))).
Proof.
  induction sites as [|s sites IH]; intros copy g i Hnd; cbn [forSites].
  - split; [reflexivity|]. intros site Hin. inversion Hin.
  - rewrite fmap_cons in Hnd. apply NoDup_cons in Hnd as [Hs Hnd].
    unfold advanceSite. unfold mbind, Rand_bind, mret, Rand_ret.
    pose proof (advanceRows_snd now (default [] (copy !! Site.id s)) g i) as Hj.
    destruct (advanceRows now (default [] (copy !! Site.id s)) g i) as [rows j] eqn:Er.
    cbn [snd] in Hj. subst j. cbv beta iota.
    destruct (IH (<[Site.id s := rows]> copy) g
                (i + drawsFor (default [] (copy !! Site.id s)))%nat Hnd) as [Hout Hin].
    split.
    + intros id Hid. rewrite fmap_cons in Hid. apply not_elem_of_cons in Hid as [? ?].
      rewrite Hout by assumption. now rewrite lookup_insert_ne.
    + intros site Hsite. cbn [drawsBefore].
      apply elem_of_cons in Hsite as [->|Hsite].
      * rewrite Hout by exact Hs. rewrite lookup_insert_eq.
        rewrite decide_True by reflexivity. rewrite Nat.add_0_r, Er. reflexivity.
      * assert (Hne : Site.id s <> Site.id site).
        { intros E. apply Hs. rewrite E. now apply list_elem_of_fmap_2. }
        rewrite decide_False by exact Hne.
        rewrite Hin by exact Hsite.
        rewrite lookup_insert_ne by exact Hne.
        rewrite (drawsBefore_ext sites copy).
        { now rewrite Nat.add_assoc. }
        intros x Hx. apply lookup_insert_ne.
        intros E. apply Hs. rewrite E. now apply list_elem_of_fmap_2.
Qed.

Lemma advance_lookup prev now g i site :
  site ∈ SITES ->
  fst (advance prev now g i) !! Site.id site =
  Some (fst (advanceRows now (default [] (prev !! Site.id site)) g
               (i + drawsBefore SITES prev (Site.id site))%nat)).
Proof. intros H. now apply (forSites_lookup now SITES prev g i SITES_NoDup). Qed.

Lemma drawsBefore_same sites copy copy' id :
  (forall site, site ∈ sites ->
     drawsFor (default [] (copy' !! Site.id site)) =
     drawsFor (default [] (copy !! Site.id site))) ->
  drawsBefore sites copy' id = drawsBefore sites copy id.
Proof.
  induction sites as [|s sites IH]; intros H; cbn [drawsBefore]; [reflexivity|].
  destruct (decide (Site.id s = id)); [reflexivity|].
  rewrite H by (apply elem_of_cons; now left).
  rewrite IH; [reflexivity|]. intros site Hs. apply H. apply elem_of_cons. now right.
Qed.

(** C7: one pass of the timer callback computes the new series of a site
    [B] from the previous series of [B] alone, the clock and the draws made
    at its turn: it is the last 240 entries of the previous series of [B]
    followed by one new reading.  Replacing the series of another site [A]
    changes neither the length nor the kept entries of the series of [B],
    and leaves it the same altogether when the draws at the turn of [B] are
    the same (the callback draws ten more numbers for an empty series). *)
Theorem advance_per_site (prev : Series) (now : Z) (g : rng) (i : nat) (B : Site.t) :
  B ∈ SITES ->
  let old := default [] (prev !! Site.id B) in
  let new := fst (advance prev now g i) !! Site.id B in
  new = Some (fst (advanceRows now old g (i + drawsBefore SITES prev (Site.id B))%nat)) /\
  (exists next, new = Some (slice_last 240 old ++ [next])) /\
  (forall (A : Site.t) (rowsA : list Reading),
     Site.id A <> Site.id B ->
     (exists next',
        fst (advance (<[Site.id A := rowsA]> prev) now g i) !! Site.id B
        = Some (slice_last 240 old ++ [next'])) /\
     (drawsFor rowsA = drawsFor (default [] (prev !! Site.id A)) ->
      fst (advance (<[Site.id A := rowsA]> prev) now g i) !! Site.id B = new)) /\
  (forall (prev' : Series) (g' : rng) (i' : nat),
     prev' !! Site.id B = prev !! Site.id B ->
     (forall n, g' (i' + drawsBefore SITES prev' (Site.id B) + n)%nat
                = g (i + drawsBefore SITES prev (Site.id B) + n)%nat) ->
     fst (advance prev' now g' i') !! Site.id B = new).
Proof.
  intros HB. cbv zeta. rewrite (advance_lookup prev now g i B HB).
  split; [reflexivity|]. split.
  { destruct (advanceRows_shape now (default [] (prev !! Site.id B)) g
                (i + drawsBefore SITES prev (Site.id B))%nat) as (next & -> & _).
    now exists next. }
  split.
  - intros A rowsA Hne.
    rewrite (advance_lookup _ now g i B HB), lookup_insert_ne by exact Hne.
    split.
    + destruct (advanceRows_shape now (default [] (prev !! Site.id B)) g
        (i + drawsBefore SITES (<[Site.id A := rowsA]> prev) (Site.id B))%nat)
        as (next & -> & _).
      now exists next.
    + intros Hd. rewrite (drawsBefore_same SITES prev); [reflexivity|].
      intros site _. destruct (decide (Site.id A = Site.id site)) as [E|NE].
      * rewrite <- E, lookup_insert_eq. exact Hd.
      * now rewrite lookup_insert_ne.
  - intros prev' g' i' Hsame Hdraws.
    rewrite (advance_lookup prev' now g' i' B HB), Hsame. f_equal.
    apply advanceRows_ext. exact Hdraws.
Qed.

Lemma advance_per_site_witness :
  site_alki ∈ SITES /\
  fst (advance (<["PS-EDMONDS" := [reading_far]]> ∅) 1700000000000 draws_half 0%nat)
    !! "PS-ALKI"
  = fst (advance ∅ 1700000000000 draws_half 0%nat) !! "PS-ALKI" /\
  exists next,
    fst (advance (<["PS-EDMONDS" := [reading_far]]> ∅) 1700000000000 draws_half 0%nat)
      !! "PS-ALKI" = Some [next].
Proof.
  assert (HB : site_alki ∈ SITES).
  { apply elem_of_cons. right. apply elem_of_cons. now left. }
  split; [exact HB|].
  destruct (advance_per_site (<["PS-EDMONDS" := [reading_far]]> ∅)
              1700000000000 draws_half 0%nat site_alki HB) as (_ & Hshape & _ & Hind).
  split.
  - symmetry. apply Hind; reflexivity.
  - exact Hshape.
Defined.

Lemma timerTicks_length t0 n : length (timerTicks t0 n) = n.
Proof. revert t0. induction n as [|n IH]; intros t0; cbn; [reflexivity|]. now rewrite IH. Qed.

(** The length of every site's series after a number of timer ticks. *)
Lemma advances_length nows : forall (s : Series) g j L,
  (L <= 241)%nat ->
  (forall site, site ∈ SITES ->
     exists rows, s !! Site.id site = Some rows /\ length rows = L) ->
  forall site, site ∈ SITES ->
    exists rows, fst (advances nows s g j) !! Site.id site = Some rows /\
                 length rows = Nat.min (L + length nows) 241.
Proof.
  induction nows as [|now nows IH]; intros s g j L HL Hs site Hsite; cbn [advances].
  - destruct (Hs site Hsite) as (rows & E & Hlen). exists rows.
    split; [exact E|]. cbn [length]. lia.
  - unfold mbind, Rand_bind.
    destruct (advance s now g j) as [s' j'] eqn:Ea.
    destruct (IH s' g j' (Nat.min L 240 + 1)%nat ltac:(lia)) with (site := site)
      as (rows & E & Hlen).
    + intros x Hx. destruct (Hs x Hx) as (rowsx & Ex & Hlx).
      pose proof (advance_lookup s now g j x Hx) as Hl. rewrite Ea in Hl.
      cbn [fst] in Hl. rewrite Hl. eexists. split; [reflexivity|].
      rewrite advanceRows_length, Ex. cbn [default from_option id]. lia.
    + exact Hsite.
    + exists rows. split; [exact E|]. cbn [length]. lia.
Qed.

Lemma seeded_then_advanced fuel clock nows g i :
  (38 <= fuel)%nat ->
  exists seed j, seedAll fuel clock g i = (Some seed, j) /\
    forall site, site ∈ SITES ->
      exists rows, fst (advances nows seed g j) !! Site.id site = Some rows /\
                   length rows = Nat.min (37 + length nows) 241.
Proof.
  intros Hf.
  destruct (seedSites_spec fuel clock SITES ∅ g i Hf SITES_NoDup) as (m & E & _ & Hin).
  exists m, (i + 380 * length SITES)%nat. split; [exact E|].
  apply advances_length; [lia|].
  intros site Hsite. destruct (Hin site Hsite) as (rows & Hl & Hlen & _). eauto.
Qed.

(** The range invariant holds for every reading of every series the
    application ever holds. *)
Lemma advances_in_range nows : forall (s : Series) g j,
  (forall site, site ∈ SITES ->
     exists rows, s !! Site.id site = Some rows /\ Forall in_range rows) ->
  forall site, site ∈ SITES ->
    exists rows, fst (advances nows s g j) !! Site.id site = Some rows /\
                 Forall in_range rows.
Proof.
  induction nows as [|now nows IH]; intros s g j Hs site Hsite; cbn [advances].
  - exact (Hs site Hsite).
  - unfold mbind, Rand_bind.
    destruct (advance s now g j) as [s' j'] eqn:Ea.
    apply IH; [|exact Hsite].
    intros x Hx. destruct (Hs x Hx) as (rowsx & Ex & Hrx).
    pose proof (advance_lookup s now g j x Hx) as Hl. rewrite Ea in Hl.
    cbn [fst] in Hl. rewrite Hl, Ex. cbn [default from_option id].
    destruct (advanceRows_shape now rowsx g (j + drawsBefore SITES s (Site.id x))%nat)
      as (next & -> & _ & Hnext).
    eexists. split; [reflexivity|].
    apply Forall_app. split; [|now constructor].
    unfold slice_last. now apply Forall_drop.
Qed.

Lemma reachable_in_range fuel clock nows g i :
  (38 <= fuel)%nat ->
  exists seed j, seedAll fuel clock g i = (Some seed, j) /\
    forall site, site ∈ SITES ->
      exists rows, fst (advances nows seed g j) !! Site.id site = Some rows /\
                   Forall in_range rows.
Proof.
  intros Hf.
  destruct (seedSites_spec fuel clock SITES ∅ g i Hf SITES_NoDup) as (m & E & _ & Hin).
  exists m, (i + 380 * length SITES)%nat. split; [exact E|].
  apply advances_in_range.
  intros site Hsite. destruct (Hin site Hsite) as (rows & Hl & _ & _ & _ & Hr). eauto.
Qed.

(** C1, as the code has it: every series produced by seeding and any
    number of timer ticks has at most 241 entries, namely
    [min (37 + ticks) 241].  Each tick keeps the last 240 entries of the
    previous series, dropping from the front, and then appends one new
    reading; on a series of 241 entries it evicts exactly the oldest one. *)
Theorem series_window (fuel : nat) (clock : string -> Z) (nows : list Z)
  (g : rng) (i : nat) :
  (38 <= fuel)%nat ->
  (exists seed j, seedAll fuel clock g i = (Some seed, j) /\
     forall site, site ∈ SITES ->
       exists rows, fst (advances nows seed g j) !! Site.id site = Some rows /\
                    length rows = Nat.min (37 + length nows) 241 /\
                    (length rows <= 241)%nat) /\
  (forall (prev : Series) (now : Z) (g' : rng) (i' : nat) (site : Site.t),
     site ∈ SITES ->
     let old := default [] (prev !! Site.id site) in
     exists next,
       fst (advance prev now g' i') !! Site.id site
         = Some (slice_last 240 old ++ [next]) /\
       length (slice_last 240 old ++ [next]) = (Nat.min (length old) 240 + 1)%nat /\
       (length old = 241%nat ->
        exists oldest kept, old = oldest :: kept /\
                            slice_last 240 old ++ [next] = kept ++ [next])).
Proof.
  intros Hf. split.
  - destruct (seeded_then_advanced fuel clock nows g i Hf) as (seed & j & E & H).
    exists seed, j. split; [exact E|].
    intros site Hsite. destruct (H site Hsite) as (rows & Hl & Hlen).
    exists rows. repeat split; [exact Hl | exact Hlen | lia].
  - intros prev now g' i' site Hsite. cbv zeta.
    rewrite (advance_lookup prev now g' i' site Hsite).
    destruct (advanceRows_shape now (default [] (prev !! Site.id site)) g'
                (i' + drawsBefore SITES prev (Site.id site))%nat) as (next & -> & _).
    exists next. split; [reflexivity|]. split.
    + rewrite length_app, slice_last_length. reflexivity.
    + intros Hlen. destruct (default [] (prev !! Site.id site)) as [|oldest kept];
        [discriminate|].
      exists oldest, kept. split; [reflexivity|].
      unfold slice_last. rewrite Hlen. reflexivity.
Qed.

Lemma series_window_witness :
  (38 <= 40)%nat /\
  exists seed j, seedAll 40 (fun _ => 1700000000000%Z) draws_half 0%nat = (Some seed, j) /\
    forall site, site ∈ SITES ->
      exists rows,
        fst (advances (timerTicks 1700000000000 300) seed draws_half j) !! Site.id site
          = Some rows /\
        length rows = 241%nat /\ (length rows <= 241)%nat.
Proof.
  split; [lia|].
  destruct (series_window 40 (fun _ => 1700000000000%Z)
              (timerTicks 1700000000000 300) draws_half 0%nat) as [H _]; [lia|].
  rewrite timerTicks_length in H. exact H.
Defined.

(** C1 fails as stated: 204 timer ticks after seeding, the series of
    every site has 241 entries, one more than the window of 240. *)
Lemma series_exceeds_240 :
  exists seed j rows,
    seedAll 40 (fun _ => 1700000000000%Z) draws_half 0%nat = (Some seed, j) /\
    fst (advances (timerTicks 1700000000000 204) seed draws_half j) !! "PS-EDMONDS"
      = Some rows /\
    length rows = 241%nat /\ ~ (length rows <= 240)%nat.
Proof.
  destruct (seeded_then_advanced 40 (fun _ => 1700000000000%Z)
              (timerTicks 1700000000000 204) draws_half 0%nat) as (seed & j & E & H);
    [lia|].
  destruct (H site_edmonds) as (rows & Hl & Hlen).
  { apply elem_of_cons. now left. }
  rewrite timerTicks_length in Hlen.
  exists seed, j, rows. repeat split; [exact E | exact Hl | exact Hlen | ].
  rewrite Hlen. lia.
Qed.

(** ** Sorting with a comparator that looks at its first argument only *)

Module V8Facts.
Section FirstArgument.
Context {A : Type} (compare : A -> A -> Z) (front : A -> bool).
Hypothesis compare_front : forall a b, (compare a b <? 0)%Z = front a.

Local Abbreviation back := (fun a => negb (front a)).

(** A pivot that compares below everything is inserted at the lower end
    of the search interval, any other pivot at the upper end. *)
Lemma search_front fuel work pivot : forall left right,
  front pivot = true -> V8.search compare fuel work pivot left right = left.
Proof.
  induction fuel as [|fuel IH]; intros left right Hp; cbn [V8.search]; [reflexivity|].
  destruct (left <? right)%nat; [|reflexivity].
  destruct (work !! _); [|reflexivity].
  rewrite compare_front, Hp. now apply IH.
Qed.

Lemma search_back fuel work pivot : forall left right,
  front pivot = false ->
  (left <= right)%nat -> (right <= length work)%nat -> (right - left <= fuel)%nat ->
  V8.search compare fuel work pivot left right = right.
Proof.
  induction fuel as [|fuel IH]; intros left right Hp Hlr Hr Hf; cbn [V8.search]; [lia|].
  destruct (Nat.ltb_spec left right) as [Hlt|Hge]; [|lia].
  assert (Hm : (left + (right - left) / 2 < right)%nat).
  { pose proof (Nat.div_lt (right - left) 2). lia. }
  destruct (lookup_lt_is_Some_2 work (left + (right - left) / 2)%nat ltac:(lia)) as [x ->].
  rewrite compare_front, Hp. apply IH; [exact Hp|lia|lia|lia].
Qed.

Lemma drop_past_middle (pre : list A) p post :
  drop (S (length pre)) (pre ++ p :: post) = post.
Proof.
  rewrite (cons_middle p pre post), app_assoc.
  apply drop_app_length'. rewrite length_app. cbn. lia.
Qed.

Lemma insertPivot_front pre p post :
  front p = true ->
  V8.insertPivot compare (pre ++ p :: post) (length pre) = p :: pre ++ post.
Proof.
  intros Hp. unfold V8.insertPivot.
  rewrite list_lookup_middle by reflexivity.
  rewrite search_front by exact Hp.
  rewrite Nat.sub_0_r, drop_0, take_0, take_app_length, drop_past_middle.
  reflexivity.
Qed.

Lemma insertPivot_back pre p post :
  front p = false ->
  V8.insertPivot compare (pre ++ p :: post) (length pre) = pre ++ p :: post.
Proof.
  intros Hp. unfold V8.insertPivot.
  rewrite list_lookup_middle by reflexivity.
  rewrite search_back; [|exact Hp|lia|rewrite length_app; lia|lia].
  rewrite Nat.sub_diag, take_0, take_app_length, drop_past_middle.
  reflexivity.
Qed.

(** The insertion loop moves the front elements of the unsorted part to
    the front of the array, one before the other, and leaves the rest. *)
Lemma insertFrom_split post : forall pre,
  V8.insertFrom compare (length post) (pre ++ post) (length pre)
  = rev (List.filter front post) ++ pre ++ List.filter back post.
Proof.
  induction post as [|p post IH]; intros pre; cbn [length V8.insertFrom List.filter].
  - now rewrite app_nil_r.
  - destruct (front p) eqn:Hp; cbn [negb].
    + rewrite insertPivot_front by exact Hp.
      change (p :: pre ++ post) with ((p :: pre) ++ post).
      change (S (length pre)) with (length (p :: pre)).
      rewrite IH. cbn [rev]. now rewrite <- app_assoc.
    + rewrite insertPivot_back by exact Hp.
      rewrite (cons_middle p pre post), app_assoc.
      replace (S (length pre)) with (length (pre ++ [p])) by (rewrite length_app; cbn; lia).
      rewrite IH. now rewrite <- !app_assoc.
Qed.

(** The elements the scan of [CountAndMakeRun] accepts are all front
    elements in a descending run, and none of them is in an ascending run. *)
Lemma countRun_uniform d prev rest :
  (V8.countRun compare d prev rest <= length rest)%nat /\
  Forall (fun a => front a = d) (take (V8.countRun compare d prev rest) rest).
Proof.
  revert prev. induction rest as [|a rest IH]; intros prev; cbn [V8.countRun].
  - split; [reflexivity | constructor].
  - assert (Hge : (compare a prev >=? 0)%Z = negb (front a)).
    { rewrite <- compare_front with (b := prev). rewrite Z.geb_leb, Z.ltb_antisym.
      now rewrite negb_involutive. }
    rewrite Hge, compare_front.
    destruct d, (front a) eqn:Ha; cbn [negb take length];
      try (split; [lia | constructor]);
      destruct (IH a) as [Hl Hf]; (split; [lia | constructor; [exact Ha | exact Hf]]).
Qed.

Lemma filter_all (p : A -> bool) l : Forall (fun a => p a = true) l -> List.filter p l = l.
Proof.
  induction 1 as [|a l Ha _ IH]; cbn [List.filter]; [reflexivity|]. now rewrite Ha, IH.
Qed.

Lemma filter_none (p : A -> bool) l : Forall (fun a => p a = false) l -> List.filter p l = [].
Proof.
  induction 1 as [|a l Ha _ IH]; cbn [List.filter]; [reflexivity|]. now rewrite Ha, IH.
Qed.

Lemma Forall_negb l d :
  Forall (fun a => front a = d) l -> Forall (fun a => negb (front a) = negb d) l.
Proof. intros H. eapply Forall_impl; [exact H|]. intros a ->. reflexivity. Qed.

Lemma CountAndMakeRun_split a0 a1 rest :
  let run := take (2 + V8.countRun compare (front a1) a1 rest) (a0 :: a1 :: rest) in
  let post := drop (2 + V8.countRun compare (front a1) a1 rest) (a0 :: a1 :: rest) in
  V8.CountAndMakeRun compare (a0 :: a1 :: rest)
  = ((rev (List.filter front run) ++ List.filter back run) ++ post, length run).
Proof.
  cbv zeta. unfold V8.CountAndMakeRun. rewrite compare_front.
  destruct (countRun_uniform (front a1) a1 rest) as [Hl Hf].
  set (n := V8.countRun compare (front a1) a1 rest) in *.
  assert (Hlen : length (take (2 + n) (a0 :: a1 :: rest)) = (2 + n)%nat).
  { rewrite length_take. cbn [length]. lia. }
  rewrite Hlen. cbn [Nat.add take drop] in *.
  destruct (front a1) eqn:H1.
  - f_equal. f_equal. cbn [List.filter]. rewrite H1.
    rewrite (filter_all front _ Hf), (filter_none back (take n rest)) by
      (apply (Forall_negb _ true), Hf).
    destruct (front a0); cbn [negb rev app]; now rewrite ?app_nil_r, <- ?app_assoc.
  - f_equal. f_equal. cbn [List.filter]. rewrite H1.
    rewrite (filter_none front _ Hf), (filter_all back (take n rest)) by
      (apply (Forall_negb _ false), Hf).
    destruct (front a0); cbn [negb rev app]; now rewrite take_drop.
Qed.

Lemma partition_length t :
  length (rev (List.filter front t) ++ List.filter back t) = length t.
Proof.
  rewrite length_app, length_rev.
  induction t as [|a t IH]; cbn [List.filter length]; [reflexivity|].
  destruct (front a); cbn [negb length]; lia.
Qed.

(** The sort puts the front elements first, in the reverse of their
    order in the array, and the other elements after them, in order. *)
Lemma sort_first_argument l :
  V8.sort compare l = rev (List.filter front l) ++ List.filter back l.
Proof.
  unfold V8.sort. destruct l as [|a0 [|a1 rest]].
  - reflexivity.
  - cbn. destruct (front a0); reflexivity.
  - change (length (a0 :: a1 :: rest) <? 2)%nat with false. cbv iota.
    rewrite CountAndMakeRun_split.
    set (n := (2 + V8.countRun compare (front a1) a1 rest)%nat).
    set (l := a0 :: a1 :: rest).
    assert (Hn : (2 <= n)%nat) by (unfold n; lia).
    assert (Hl : l = take n l ++ drop n l) by (symmetry; apply take_drop).
    assert (Hsplit : rev (List.filter front l) ++ List.filter back l
                     = rev (List.filter front (drop n l))
                         ++ (rev (List.filter front (take n l)) ++ List.filter back (take n l))
                         ++ List.filter back (drop n l)).
    { rewrite Hl at 1 2. rewrite !List.filter_app, rev_app_distr, <- !app_assoc.
      reflexivity. }
    rewrite Hsplit.
    destruct (Nat.ltb_spec (length (take n l)) (length l)) as [Hlt|Hge].
    + unfold V8.BinaryInsertionSort.
      destruct (Nat.eqb_spec (length (take n l)) 0) as [E|_].
      { rewrite length_take in E. unfold l in E. cbn [length] in E. lia. }
      set (pre := rev (List.filter front (take n l)) ++ List.filter back (take n l)).
      assert (Hpre : length pre = length (take n l)).
      { apply partition_length. }
      rewrite <- Hpre.
      replace (length (pre ++ drop n l) - length pre)%nat with (length (drop n l))
        by (rewrite length_app; lia).
      apply insertFrom_split.
    + assert (Hd : drop n l = []).
      { apply drop_ge. rewrite length_take in Hge. lia. }
      rewrite Hd. cbn [List.filter rev app]. now rewrite !app_nil_r.
Qed.

End FirstArgument.
End V8Facts.

(** ** Active alerts *)

Lemma alertCompare_front a b : (alertCompare a b <? 0)%Z = is_crit (level a).
Proof. unfold alertCompare. now destruct (level a). Qed.

(** The comparator is not a consistent comparison function: it orders a
    critical alert strictly before itself, and two critical alerts each
    strictly before the other. *)
Lemma alertCompare_inconsistent a b :
  level a = Level.crit -> level b = Level.crit ->
  (alertCompare a a < 0)%Z /\ (alertCompare a b < 0)%Z /\ (alertCompare b a < 0)%Z.
Proof. unfold alertCompare. intros -> ->. repeat split. Qed.

(** What the code computes: the critical alerts first, in the reverse
    of the enumeration order of the parameters, then the warnings in
    enumeration order. *)
Lemma alerts_v8_order T r :
  alerts T (Some r)
  = rev (List.filter (fun a => is_crit (level a)) (classified T r))
      ++ List.filter (fun a => negb (is_crit (level a))) (classified T r).
Proof. apply V8Facts.sort_first_argument, alertCompare_front. Qed.

(** C4 at a reading with two critical parameters (temp = 25, do = 3): the
    classified alerts are temp and do, in enumeration order, and so is
    their stable partition; the sorted alerts are do, then temp. *)
Theorem alerts_two_critical :
  List.map (fun a => (key a, level a)) (classified THRESHOLDS reading_two_crit)
    = [(Ktemp, Level.crit); (Kdo, Level.crit)] /\
  List.map key (stablePartition (classified THRESHOLDS reading_two_crit))
    = [Ktemp; Kdo] /\
  List.map key (alerts THRESHOLDS (Some reading_two_crit)) = [Kdo; Ktemp] /\
  alerts THRESHOLDS (Some reading_two_crit)
    <> stablePartition (classified THRESHOLDS reading_two_crit).
Proof.
  assert (Hs : List.map key (stablePartition (classified THRESHOLDS reading_two_crit))
               = [Ktemp; Kdo]) by (vm_compute; reflexivity).
  assert (Ha : List.map key (alerts THRESHOLDS (Some reading_two_crit)) = [Kdo; Ktemp])
    by (vm_compute; reflexivity).
  split; [vm_compute; reflexivity|]. split; [exact Hs|]. split; [exact Ha|].
  intros E. rewrite E, Hs in Ha. discriminate Ha.
Qed.

(** ** CSV export *)

(** C10: the export of an empty series is the header line alone: the
    twelve column names joined by commas, no row and no line feed. *)
Theorem toCSV_empty :
  toCSV [] = Some "timestamp,time_local,temp_c,sal_psu,ph,do_mgL,turb_ntu,chl_ugL,gene_expr_AU,methyl_frac,metabo_AU,lipid_ox_frac"
  /\ length columns = 12%nat.
Proof. split; reflexivity. Qed.

(** *** Strings of digits *)

Lemma append_nil_l (s : string) : "" +:+ s = s.
Proof. reflexivity. Qed.

Lemma append_cons c (a b : string) : String c a +:+ b = String c (a +:+ b).
Proof. reflexivity. Qed.

Lemma append_assoc (a b c : string) : (a +:+ b) +:+ c = a +:+ b +:+ c.
Proof. induction a as [|x a IH]; [reflexivity|]. rewrite !append_cons. now f_equal. Qed.

Lemma string_length_app (a b : string) :
  String.length (a +:+ b) = (String.length a + String.length b)%nat.
Proof.
  induction a as [|c a IH]; [reflexivity|].
  rewrite append_cons. cbn [String.length]. now rewrite IH.
Qed.

Lemma zeros_length n : String.length (zeros n) = n.
Proof.
  induction n as [|n IH]; [reflexivity|].
  cbn [zeros]. rewrite append_cons, append_nil_l. cbn [String.length]. now rewrite IH.
Qed.

Lemma substring_all (s : string) : String.substring 0 (String.length s) s = s.
Proof. induction s as [|c s IH]; simpl; [reflexivity|]. now f_equal. Qed.

(** A string is its first [n] characters followed by the rest. *)
Lemma substring_split (s : string) : forall n,
  (n <= String.length s)%nat ->
  s = String.substring 0 n s +:+ String.substring n (String.length s - n) s /\
  String.length (String.substring 0 n s) = n.
Proof.
  induction s as [|c s IH]; intros [|n] Hn; simpl in *; try lia.
  - split; reflexivity.
  - split; [|reflexivity]. now rewrite append_nil_l, substring_all.
  - destruct (IH n ltac:(lia)) as [E L]. split; [|now f_equal].
    rewrite append_cons. now f_equal.
Qed.

Lemma uint_of_zeros n d :
  option_map Z.of_uint (NilEmpty.uint_of_string (zeros n +:+ NilEmpty.string_of_uint d))
  = Some (Z.of_uint d).
Proof.
  induction n as [|n IH]; cbn [zeros].
  - now rewrite append_nil_l, NilEmpty.usu.
  - rewrite !append_cons, append_nil_l. cbn [NilEmpty.uint_of_string].
    destruct (NilEmpty.uint_of_string (zeros n +:+ NilEmpty.string_of_uint d)) as [u|];
      [|discriminate IH].
    simpl in IH |- *. exact IH.
Qed.

(** The digits of a natural number, read back, give the number. *)
Lemma Number_toString_digits n :
  (0 <= n)%Z ->
  exists d, Number_toString n = NilEmpty.string_of_uint d /\ Z.of_uint d = n /\
            (1 <= String.length (Number_toString n))%nat.
Proof.
  intros Hn. unfold Number_toString. destruct n as [|p|p]; [| |lia].
  - exists (Decimal.D0 Decimal.Nil). repeat split. cbn. lia.
  - cbn [Z.to_int NilZero.string_of_int].
    assert (E : Z.of_uint (Pos.to_uint p) = Z.pos p).
    { unfold Z.of_uint. now rewrite DecimalPos.Unsigned.of_to. }
    exists (Pos.to_uint p). destruct (Pos.to_uint p) eqn:Ed;
      try discriminate E; (split; [reflexivity|]); (split; [exact E|]); cbn; lia.
Qed.

(** Below [10^21], [toFixed] with at least one fraction digit returns the
    fixed notation of its argument. *)
Lemma toFixed_fixed x f :
  (0 < f)%nat -> Qabs x < 10 ^ 21 ->
  exists s, toFixed x f = Some s /\ fixed_notation f x s.
Proof.
  intros Hf Hx. unfold toFixed.
  apply Qle_bool_false in Hx. rewrite Hx.
  destruct (Nat.eqb_spec f 0) as [E|_]; [lia|].
  set (n := Qfloor (Qabs x * 10 ^ Z.of_nat f + (1 # 2))).
  assert (Hn : (0 <= n)%Z).
  { change 0%Z with (Qfloor 0). apply Qfloor_resp_le.
    pose proof (Qabs_nonneg x). pose proof (Qpower_0_le 10 (Z.of_nat f) ltac:(discriminate)).
    nra. }
  destruct (Number_toString_digits n Hn) as (d & Hm & Hd & Hlen).
  set (m := Number_toString n) in *.
  set (m' := if (String.length m <=? f)%nat
             then zeros (f + 1 - String.length m) +:+ m else m).
  assert (Hlen' : (f + 1 <= String.length m')%nat).
  { unfold m'. destruct (Nat.leb_spec (String.length m) f).
    - rewrite string_length_app, zeros_length. lia.
    - lia. }
  assert (Hval : decimal_value m' = Some n).
  { unfold decimal_value, m'. rewrite <- Hd, Hm.
    destruct (String.length (NilEmpty.string_of_uint d) <=? f)%nat.
    - apply uint_of_zeros.
    - apply (uint_of_zeros 0). }
  destruct (substring_split m' (String.length m' - f) ltac:(lia)) as [Hsplit Ha].
  replace (String.length m' - (String.length m' - f))%nat with f in Hsplit by lia.
  eexists. split; [reflexivity|].
  exists (String.substring 0 (String.length m' - f) m'),
         (String.substring (String.length m' - f) f m').
  split; [reflexivity|]. split; [lia|]. split.
  - apply (f_equal String.length) in Hsplit.
    rewrite string_length_app, Ha in Hsplit. lia.
  - rewrite <- Hsplit. exact Hval.
Qed.

Lemma toISOString_valid t :
  (Z.abs t <= 8640000000000000)%Z -> exists s, toISOString t = Some s.
Proof.
  intros H. unfold toISOString.
  destruct (Z.leb_spec (Z.abs t) 8640000000000000) as [_|C]; [|lia].
  destruct (civil (t / 86400000)) as [[y m] d]. eauto.
Qed.

Lemma line_exportable r : exportable r -> exists l, line r = Some l /\ csv_line r l.
Proof.
  intros [Hts Hf]. unfold line.
  destruct (toISOString_valid (ts r) Hts) as (iso & Hiso). rewrite Hiso.
  destruct (toFixed_fixed (temp r) 2 ltac:(lia) (Hf Ktemp)) as (c1 & E1 & F1).
  destruct (toFixed_fixed (sal r) 2 ltac:(lia) (Hf Ksal)) as (c2 & E2 & F2).
  destruct (toFixed_fixed (ph r) 2 ltac:(lia) (Hf Kph)) as (c3 & E3 & F3).
  destruct (toFixed_fixed (do r) 2 ltac:(lia) (Hf Kdo)) as (c4 & E4 & F4).
  destruct (toFixed_fixed (turb r) 1 ltac:(lia) (Hf Kturb)) as (c5 & E5 & F5).
  destruct (toFixed_fixed (chl r) 1 ltac:(lia) (Hf Kchl)) as (c6 & E6 & F6).
  destruct (toFixed_fixed (gene_expr r) 1 ltac:(lia) (Hf Kgene_expr)) as (c7 & E7 & F7).
  destruct (toFixed_fixed (methyl r) 3 ltac:(lia) (Hf Kmethyl)) as (c8 & E8 & F8).
  destruct (toFixed_fixed (metabo r) 1 ltac:(lia) (Hf Kmetabo)) as (c9 & E9 & F9).
  destruct (toFixed_fixed (lipid_ox r) 3 ltac:(lia) (Hf Klipid_ox)) as (c10 & E10 & F10).
  rewrite E1, E2, E3, E4, E5, E6, E7, E8, E9, E10.
  eexists. split; [reflexivity|].
  exists iso, c1, c2, c3, c4, c5, c6, c7, c8, c9, c10.
  repeat (split; [first [reflexivity | assumption]|]). assumption.
Qed.

Lemma lines_exportable rows :
  Forall exportable rows ->
  exists lines, mapM line rows = Some lines /\ Forall2 csv_line rows lines.
Proof.
  induction 1 as [|r rows Hr _ (lines & E & F)].
  - exists []. split; [reflexivity | constructor].
  - destruct (line_exportable r Hr) as (l & El & Hl).
    exists (l :: lines). split; [|now constructor].
    apply mapM_Some. constructor; [exact El|]. now apply mapM_Some.
Qed.

(** A reading within the ranges of its parameters can be exported
    whenever its timestamp is a valid time value. *)
Lemma in_range_exportable r :
  (Z.abs (ts r) <= 8640000000000000)%Z -> in_range r -> exportable r.
Proof.
  intros Ht Hr. split; [exact Ht|]. intros k. destruct (Hr k) as [Hl Hu].
  assert (L : 0 <= lower k) by (destruct k; qcompute).
  assert (U : upper k < 10 ^ 21) by (destruct k; qcompute).
  rewrite Qabs_pos by lra. lra.
Qed.

(** C6: for a series of readings with valid time values and fields below
    [10^21], [toCSV] returns the header line with the twelve column names
    followed by one line per reading, in the order of the series; a line is
    the timestamp, its ISO-8601 rendering and the ten fields in fixed
    notation, with 2 decimals for temp, sal, ph and do, 1 for turb, chl,
    gene_expr and metabo, and 3 for methyl and lipid_ox.  In particular
    7.8456 is written 7.85 with 2 decimals and 0.4567 is written 0.457 with
    3 decimals. *)
Theorem toCSV_rows (rows : list Reading) :
  Forall exportable rows ->
  (exists lines,
     toCSV rows = Some (String.concat LF (header :: lines)) /\
     Forall2 csv_line rows lines) /\
  header = "timestamp,time_local,temp_c,sal_psu,ph,do_mgL,turb_ntu,chl_ugL,gene_expr_AU,methyl_frac,metabo_AU,lipid_ox_frac" /\
  toFixed (lit 7.8456) 2 = Some "7.85" /\
  toFixed (lit 0.4567) 3 = Some "0.457".
Proof.
  intros H. split; [|repeat split].
  destruct (lines_exportable rows H) as (lines & E & F).
  exists lines. split; [|exact F].
  unfold toCSV. rewrite E. reflexivity.
Qed.

Lemma toCSV_rows_witness :
  Forall exportable [reading_two_crit; reading_two_crit] /\
  exists lines,
    toCSV [reading_two_crit; reading_two_crit]
      = Some (String.concat LF (header :: lines)) /\
    Forall2 csv_line [reading_two_crit; reading_two_crit] lines.
Proof.
  assert (He : exportable reading_two_crit).
  { split; [cbn; lia|]. intros k. destruct k; qcompute. }
  assert (H : Forall exportable [reading_two_crit; reading_two_crit]).
  { apply List.Forall_cons; [exact He|]. apply List.Forall_cons; [exact He|].
    apply List.Forall_nil. }
  split; [exact H|].
  exact (proj1 (toCSV_rows [reading_two_crit; reading_two_crit] H)).
Defined.

(** The text exported for two copies of a reading. *)
Example toCSV_two_rows :
  toCSV [reading_two_crit; reading_two_crit]
  = Some ("timestamp,time_local,temp_c,sal_psu,ph,do_mgL,turb_ntu,chl_ugL,gene_expr_AU,methyl_frac,metabo_AU,lipid_ox_frac"
          +:+ LF +:+ "1700000000000,2023-11-14T22:13:20.000Z,25.00,22.00,8.00,3.00,10.0,3.0,20.0,0.400,20.0,0.250"
          +:+ LF +:+ "1700000000000,2023-11-14T22:13:20.000Z,25.00,22.00,8.00,3.00,10.0,3.0,20.0,0.400,20.0,0.250").
Proof. vm_compute. reflexivity. Qed.

(* ===================================================================== *)
(** * Part III: further properties of the code *)
(* ===================================================================== *)

(** ** The classifier and the threshold form *)

(** X1: moving the levels of a parameter away from the normal side (up for
    direction [over], down for direction [under]) never raises the
    severity of a value. *)
Theorem classifyAlert_levels_antitone (T T' : Thresholds) (k : ParamKey) (v : Q) :
  dir (T' k) = dir (T k) ->
  (dir (T k) = Dir.over -> warn (T k) <= warn (T' k) /\ crit (T k) <= crit (T' k)) ->
  (dir (T k) = Dir.under -> warn (T' k) <= warn (T k) /\ crit (T' k) <= crit (T k)) ->
  Level.le (classifyAlert T' k v) (classifyAlert T k v).
Proof.
  unfold classifyAlert. destruct (T k) as [w c d], (T' k) as [w' c' d'].
  cbn [dir warn crit]. intros -> Hover Hunder.
  destruct d.
  - destruct (Hover eq_refl). qcases; unfold Level.le; cbn [Level.rank];
      try lia; exfalso; lra.
  - destruct (Hunder eq_refl). qcases; unfold Level.le; cbn [Level.rank];
      try lia; exfalso; lra.
Qed.

Lemma classifyAlert_levels_antitone_witness :
  dir (setWarn THRESHOLDS Ktemp 22 Ktemp) = dir (THRESHOLDS Ktemp) /\
  Level.le (classifyAlert (setWarn THRESHOLDS Ktemp 22) Ktemp 21)
           (classifyAlert THRESHOLDS Ktemp 21).
Proof.
  split; [reflexivity|].
  apply classifyAlert_levels_antitone; [reflexivity| |discriminate].
  intros _. split; discriminate.
Defined.

(** X2: when the levels of a parameter are entered in the wrong order
    (critical not beyond warning in the direction of the parameter), or
    are equal, no value classifies as warning: a value is ok or critical. *)
Theorem classifyAlert_inverted_levels (T : Thresholds) (k : ParamKey) (v : Q) :
  (dir (T k) = Dir.over -> crit (T k) <= warn (T k)) ->
  (dir (T k) = Dir.under -> warn (T k) <= crit (T k)) ->
  classifyAlert T k v <> Level.warn.
Proof.
  unfold classifyAlert. destruct (T k) as [w c d]. cbn [dir warn crit].
  intros Hover Hunder. destruct d.
  - specialize (Hover eq_refl). qcases; try discriminate; exfalso; lra.
  - specialize (Hunder eq_refl). qcases; try discriminate; exfalso; lra.
Qed.

Lemma classifyAlert_inverted_levels_witness :
  crit (inverted Ktemp) <= warn (inverted Ktemp) /\
  classifyAlert inverted Ktemp 22 <> Level.warn.
Proof.
  split; [discriminate|].
  apply classifyAlert_inverted_levels; [intros _; discriminate | discriminate].
Defined.

(** X3: editing a level of one parameter keeps the direction of every
    parameter, leaves the classification of every other parameter and
    their alert records as they were, and the two edits of a parameter
    commute. *)
Theorem threshold_edit_frame (T : Thresholds) (k : ParamKey) (v : Q) (r : Reading) :
  (forall k', dir (setWarn T k v k') = dir (T k') /\ dir (setCrit T k v k') = dir (T k')) /\
  (forall k' x, k' <> k ->
     classifyAlert (setWarn T k v) k' x = classifyAlert T k' x /\
     classifyAlert (setCrit T k v) k' x = classifyAlert T k' x) /\
  List.filter (fun a => negb (bool_decide (key a = k))) (classified (setWarn T k v) r)
    = List.filter (fun a => negb (bool_decide (key a = k))) (classified T r) /\
  List.filter (fun a => negb (bool_decide (key a = k))) (classified (setCrit T k v) r)
    = List.filter (fun a => negb (bool_decide (key a = k))) (classified T r) /\
  (forall w k' x,
     classifyAlert (setCrit (setWarn T k v) k w) k' x
     = classifyAlert (setWarn (setCrit T k w) k v) k' x).
Proof.
  assert (Hd : forall k', dir (setWarn T k v k') = dir (T k') /\
                          dir (setCrit T k v k') = dir (T k')).
  { intros k'. unfold setWarn, setCrit. destruct (decide (k' = k)) as [->|]; now split. }
  assert (Hc : forall k' x, k' <> k ->
     classifyAlert (setWarn T k v) k' x = classifyAlert T k' x /\
     classifyAlert (setCrit T k v) k' x = classifyAlert T k' x).
  { intros k' x Hne.
    assert (Ew : setWarn T k v k' = T k') by (unfold setWarn; now rewrite decide_False).
    assert (Ec : setCrit T k v k' = T k') by (unfold setCrit; now rewrite decide_False).
    unfold classifyAlert. now rewrite Ew, Ec. }
  split; [exact Hd|]. split; [exact Hc|].
  assert (Hf : forall T', (forall k' x, k' <> k -> classifyAlert T' k' x = classifyAlert T k' x) ->
    List.filter (fun a => negb (bool_decide (key a = k))) (classified T' r)
    = List.filter (fun a => negb (bool_decide (key a = k))) (classified T r)).
  { intros T' HT'. unfold classified. induction keys as [|k0 ks IH]; [reflexivity|].
    cbn [List.map List.filter level key].
    destruct (decide (k0 = k)) as [->|Hne].
    - destruct (is_ok (classifyAlert T' k (field k r))),
               (is_ok (classifyAlert T k (field k r)));
        cbn [negb List.filter key]; rewrite ?bool_decide_eq_true_2 by reflexivity;
        cbn [negb]; exact IH.
    - rewrite (HT' k0 _ Hne).
      destruct (is_ok (classifyAlert T k0 (field k0 r))); cbn [negb List.filter key];
        [exact IH|].
      rewrite bool_decide_eq_false_2 by exact Hne. cbn [negb]. now rewrite IH. }
  split; [apply Hf; intros; now apply Hc|].
  split; [apply Hf; intros; now apply Hc|].
  intros w k' x. unfold classifyAlert, setWarn, setCrit.
  destruct (decide (k' = k)) as [->|]; [|reflexivity].
  rewrite !decide_True by reflexivity. reflexivity.
Qed.

(** ** Rounding yields binary64 values *)

Lemma ilog2_unique a y : 2 ^ a <= y -> y < 2 ^ (a + 1) -> ilog2 y = a.
Proof.
  intros L U.
  assert (Hy : 0 < y) by (pose proof (Qpow2_pos a); lra).
  destruct (ilog2_spec y Hy) as [L' U'].
  destruct (Z.lt_trichotomy (ilog2 y) a) as [C|[C|C]]; [exfalso|exact C|exfalso].
  - pose proof (Qpow2_le (ilog2 y + 1) a ltac:(lia)). lra.
  - pose proof (Qpow2_le (a + 1) (ilog2 y) ltac:(lia)). lra.
Qed.

Lemma rne_proper x y : x == y -> rne x = rne y.
Proof.
  intros E. apply Z.le_antisymm; apply rne_mono; rewrite E; apply Qle_refl.
Qed.

Lemma ulp_proper x y : 0 < x -> x == y -> ulp x = ulp y.
Proof.
  intros Hx E. unfold ulp. f_equal. f_equal. f_equal.
  apply Z.le_antisymm; apply ilog2_mono; rewrite ?E; try lra; rewrite <- ?E; lra.
Qed.

Lemma fl_pos_proper x y : 0 < x -> x == y -> fl_pos x == fl_pos y.
Proof.
  intros Hx E. apply Qle_antisym; apply fl_pos_mono; lra.
Qed.

(** The magnitude of a rounded value stays within the closed binade of
    its argument. *)
Lemma fl_pos_binade x :
  0 < x ->
  let e := Z.max (ilog2 x) (-1022) in
  fl_pos x <= 2 ^ (e + 1) /\
  ((-1022 <= ilog2 x)%Z -> 2 ^ e <= fl_pos x) /\
  fl_pos x == inject_Z (rne (x / ulp x)) * 2 ^ (e - 52).
Proof.
  intros Hx e. pose proof (ulp_pos x) as Ux.
  destruct (ilog2_spec x Hx) as [Lx Hxu].
  assert (Eu : ulp x = 2 ^ (e - 52)) by reflexivity.
  rewrite fl_pos_eq. split; [|split; [|now rewrite Eu]].
  - assert (B : x / ulp x <= inject_Z (2 ^ 53)).
    { apply Qle_shift_div_r; [exact Ux|].
      rewrite Zpow2_Q by lia. rewrite Eu, <- Qpow2_plus.
      replace (53 + (e - 52))%Z with (e + 1)%Z by lia.
      pose proof (Qpow2_le (ilog2 x + 1) (e + 1) ltac:(lia)). lra. }
    apply rne_mono in B. rewrite rne_Z in B.
    rewrite Zle_Qle in B. rewrite Zpow2_Q in B by lia.
    assert (K : 2 ^ 53 * ulp x == 2 ^ (e + 1)).
    { rewrite Eu, <- Qpow2_plus. now replace (53 + (e - 52))%Z with (e + 1)%Z by lia. }
    nra.
  - intros Hn. assert (Ee : e = ilog2 x) by lia.
    assert (B : inject_Z (2 ^ 52) <= x / ulp x).
    { apply Qle_shift_div_l; [exact Ux|].
      rewrite Zpow2_Q by lia. rewrite Eu, <- Qpow2_plus.
      replace (52 + (e - 52))%Z with (ilog2 x) by lia. exact Lx. }
    apply rne_mono in B. rewrite rne_Z in B.
    rewrite Zle_Qle in B. rewrite Zpow2_Q in B by lia.
    assert (K : 2 ^ 52 * ulp x == 2 ^ e).
    { rewrite Eu, <- Qpow2_plus. now replace (52 + (e - 52))%Z with e by lia. }
    nra.
Qed.

Lemma fl_pos_idempotent x : 0 < x -> 0 < fl_pos x -> fl_pos (fl_pos x) == fl_pos x.
Proof.
  intros Hx Hy.
  destruct (fl_pos_binade x Hx) as (Hup & Hlo & Hval). cbv zeta in *.
  set (e := Z.max (ilog2 x) (-1022)) in *. set (y := fl_pos x) in *.
  set (n := rne (x / ulp x)) in *.
  rewrite (fl_pos_eq y).
  destruct (Qlt_le_dec y (2 ^ (e + 1))) as [Hlt|Hge].
  - assert (Ee : Z.max (ilog2 y) (-1022) = e).
    { destruct (Z_le_gt_dec (-1022) (ilog2 x)) as [Hn|Hs].
      - rewrite (ilog2_unique e y); [lia| |exact Hlt]. apply Hlo. exact Hn.
      - assert (e = (-1022)%Z) by lia.
        destruct (ilog2_spec y Hy) as [Ly _].
        destruct (Z_le_gt_dec (ilog2 y) (-1022)); [lia|exfalso].
        pose proof (Qpow2_le (e + 1) (ilog2 y) ltac:(lia)). lra. }
    assert (Eu : ulp y = 2 ^ (e - 52)) by (unfold ulp; now rewrite Ee).
    rewrite Eu. pose proof (Qpow2_pos (e - 52)) as Up.
    assert (Ediv : y / 2 ^ (e - 52) == inject_Z n) by (rewrite Hval; field; lra).
    rewrite (rne_proper _ _ Ediv), rne_Z. now rewrite Hval.
  - assert (Ey : y == 2 ^ (e + 1)) by lra.
    assert (Ee : ilog2 y = (e + 1)%Z).
    { apply ilog2_unique; [lra|].
      pose proof (Qpower_lt_compat_l 2 (e + 1) (e + 1 + 1) ltac:(lia) ltac:(reflexivity)).
      lra. }
    assert (Eu : ulp y = 2 ^ (e + 1 - 52)).
    { unfold ulp. rewrite Ee. f_equal. f_equal. lia. }
    rewrite Eu. pose proof (Qpow2_pos (e + 1 - 52)) as Up.
    assert (K : 2 ^ 52 * 2 ^ (e + 1 - 52) == 2 ^ (e + 1)).
    { rewrite <- Qpow2_plus. now replace (52 + (e + 1 - 52))%Z with (e + 1)%Z by lia. }
    assert (Ediv : y / 2 ^ (e + 1 - 52) == inject_Z (2 ^ 52)).
    { rewrite Zpow2_Q by lia. rewrite Ey, <- K. field. lra. }
    rewrite (rne_proper _ _ Ediv), rne_Z. rewrite Zpow2_Q by lia. now rewrite K, Ey.
Qed.

Lemma fl_of_pos y : 0 < y -> fl y = fl_pos y.
Proof.
  destruct y as [[|p|p] d]; intros H; try reflexivity; exfalso;
    unfold Qlt in H; cbn in H; lia.
Qed.

Lemma fl_of_neg y : y < 0 -> fl y = - fl_pos (- y).
Proof.
  destruct y as [[|p|p] d]; intros H; try reflexivity; exfalso;
    unfold Qlt in H; cbn in H; lia.
Qed.

Lemma fl_of_zero y : y == 0 -> fl y = 0.
Proof.
  destruct y as [[|p|p] d]; intros H; try reflexivity; exfalso;
    unfold Qeq in H; cbn in H; lia.
Qed.

(** A value that rounding returns is a binary64 value: rounding it again
    changes nothing. *)
Lemma fl_idempotent x : fl (fl x) == fl x.
Proof.
  destruct (Q_dec x 0) as [[Hneg|Hpos]|Hz].
  - rewrite (fl_of_neg x Hneg).
    assert (Hx : 0 < - x) by lra.
    pose proof (fl_pos_nonneg (- x) ltac:(lra)) as Hy.
    destruct (Qlt_le_dec 0 (fl_pos (- x))) as [Hp|Hn].
    + rewrite fl_of_neg by lra.
      rewrite <- (fl_pos_proper (fl_pos (- x)) (- - fl_pos (- x))) by (try ring; lra).
      now rewrite (fl_pos_idempotent _ Hx Hp).
    + rewrite fl_of_zero by lra. lra.
  - rewrite (fl_of_pos x Hpos).
    pose proof (fl_pos_nonneg x ltac:(lra)) as Hy.
    destruct (Qlt_le_dec 0 (fl_pos x)) as [Hp|Hn].
    + rewrite fl_of_pos by exact Hp. now apply fl_pos_idempotent.
    + rewrite fl_of_zero by lra. lra.
  - rewrite (fl_of_zero x Hz). reflexivity.
Qed.

(** ** The generator *)

Lemma seeded_field_eq start g i k :
  field k (fst (generateSeeded start g i))
  = fadd (seedBase k) (fmul (g (i + index k)%nat) (seedSpan k)).
Proof.
  rewrite generateSeeded_eq.
  destruct k; cbn [fst field index]; rewrite ?Nat.add_0_r; reflexivity.
Qed.

(** X4: for draws of [[0, 1)] every field of a seeded reading lies between
    the base of its seed range and the rounded sum of base and span (so
    temp in [[16, 20]], ph in [[7.8, 8.0]]), is a binary64 value, and is
    within the range [tick] keeps; the timestamp is the one passed in and
    the call draws ten numbers. *)
Theorem generateSeeded_ranges (start : Z) (g : rng) (i : nat) :
  uniform01 g ->
  let r := fst (generateSeeded start g i) in
  ts r = start /\
  snd (generateSeeded start g i) = (i + 10)%nat /\
  (forall k, seedBase k <= field k r /\
             field k r <= fadd (seedBase k) (seedSpan k) /\
             representable (field k r)) /\
  in_range r.
Proof.
  intros Hg. cbv zeta.
  assert (Hk : forall k,
    seedBase k <= field k (fst (generateSeeded start g i)) /\
    field k (fst (generateSeeded start g i)) <= fadd (seedBase k) (seedSpan k)).
  { intros k. rewrite seeded_field_eq.
    destruct (Hg (i + index k)%nat) as [H0 H1].
    assert (Hs : 0 <= seedSpan k) by (destruct k; qcompute).
    destruct (seed_value_mono (seedBase k) (seedSpan k) 0 (g (i + index k)%nat) 1
                Hs H0 ltac:(lra)) as [Hlo Hhi].
    assert (Elo : fadd (seedBase k) (fmul 0 (seedSpan k)) == seedBase k)
      by (destruct k; qcompute).
    assert (Ehi : fadd (seedBase k) (fmul 1 (seedSpan k)) == fadd (seedBase k) (seedSpan k))
      by (destruct k; qcompute).
    lra. }
  split; [now rewrite generateSeeded_eq|].
  split; [now rewrite generateSeeded_eq|].
  split.
  - intros k. destruct (Hk k) as [Hlo Hhi]. repeat split; [exact Hlo | exact Hhi |].
    rewrite seeded_field_eq. apply fl_idempotent.
  - intros k. destruct (Hk k) as [Hlo Hhi].
    assert (L : lower k <= seedBase k) by (destruct k; qcompute).
    assert (U : fadd (seedBase k) (seedSpan k) <= upper k) by (destruct k; qcompute).
    lra.
Qed.

Lemma generateSeeded_ranges_witness :
  uniform01 draws_top /\
  16 <= temp (fst (generateSeeded 0 draws_top 0%nat)) /\
  temp (fst (generateSeeded 0 draws_top 0%nat)) <= 20.
Proof.
  assert (Hg : uniform01 draws_top) by (intros i; split; qcompute).
  split; [exact Hg|].
  destruct (generateSeeded_ranges 0 draws_top 0%nat Hg) as (_ & _ & Hk & _).
  destruct (Hk Ktemp) as (Hlo & Hhi & _). split; [exact Hlo | exact Hhi].
Defined.

Lemma clamp_cases lo hi x :
  clamp x lo hi = x \/ clamp x lo hi = lo \/ clamp x lo hi = hi.
Proof.
  unfold clamp, Math_max, Math_min.
  destruct (Qle_bool hi x); destruct (Qle_bool lo _); auto.
Qed.

Lemma clamp_between lo hi p x :
  lo <= p -> p <= hi ->
  (x <= p -> x <= clamp x lo hi /\ clamp x lo hi <= p) /\
  (p <= x -> p <= clamp x lo hi /\ clamp x lo hi <= x).
Proof.
  intros Hl Hh. unfold clamp, Math_max, Math_min.
  destruct (Qle_bool hi x) eqn:E1;
    [apply Qle_bool_iff in E1 | apply Qle_bool_false in E1];
    split; intros Hx; qcases; split; lra.
Qed.

(** X5: one [tick] moves a field that is a binary64 value within its range by
    at most half the step size of its parameter, up to the rounding of the
    sum, and the new value is again a binary64 value (with no hypothesis
    on the previous one). *)
Theorem tick_bounded_step (prev : Reading) (t : Z) (g : rng) (i : nat) (k : ParamKey) :
  let v := field k (fst (tick prev t g i)) in
  representable v /\
  (uniform01 g ->
   lower k <= field k prev -> field k prev <= upper k ->
   representable (field k prev) ->
   fl (field k prev - stepSize k / 2) <= v /\ v <= fl (field k prev + stepSize k / 2)).
Proof.
  cbv zeta. rewrite tick_field.
  set (p := field k prev). set (n := noise (g (i + index k)%nat) (stepSize k)).
  split.
  - destruct (clamp_cases (lower k) (upper k) (fadd p n)) as [->|[->| ->]].
    + apply fl_idempotent.
    + unfold representable. destruct k; qcompute.
    + unfold representable. destruct k; qcompute.
  - intros Hg Hlo Hhi Hrep.
    destruct (Hg (i + index k)%nat) as [H0 H1].
    destruct (noise_bound k _ H0 H1) as [Nl Nu]. fold n in Nl, Nu.
    assert (L : fl (p - stepSize k / 2) <= fadd p n) by (apply fl_mono; lra).
    assert (U : fadd p n <= fl (p + stepSize k / 2)) by (apply fl_mono; lra).
    assert (Ss : 0 <= stepSize k) by (destruct k; qcompute).
    assert (Pl : fl (p - stepSize k / 2) <= p).
    { unfold representable in Hrep. rewrite <- Hrep at 2. apply fl_mono.
      assert (0 <= stepSize k / 2) by (apply Qle_shift_div_l; lra). lra. }
    assert (Pu : p <= fl (p + stepSize k / 2)).
    { unfold representable in Hrep. rewrite <- Hrep at 1. apply fl_mono.
      assert (0 <= stepSize k / 2) by (apply Qle_shift_div_l; lra). lra. }
    destruct (clamp_between (lower k) (upper k) p (fadd p n) Hlo Hhi) as [Hbelow Habove].
    destruct (Qlt_le_dec p (fadd p n)) as [C|C].
    + destruct (Habove ltac:(lra)). split; lra.
    + destruct (Hbelow C). split; lra.
Qed.

Lemma tick_bounded_step_witness :
  uniform01 draws_top /\
  representable (temp reading_two_crit) /\
  temp (fst (tick reading_two_crit 0 draws_top 0%nat)) <= fl (25 + lit 0.3 / 2).
Proof.
  assert (Hg : uniform01 draws_top) by (intros i; split; qcompute).
  assert (Hr : representable (temp reading_two_crit)) by (unfold representable; qcompute).
  split; [exact Hg|]. split; [exact Hr|].
  destruct (tick_bounded_step reading_two_crit 0 draws_top 0%nat Ktemp) as [_ H].
  apply H; [exact Hg | qcompute | qcompute | exact Hr].
Defined.

(** ** The series buffer *)

(** An invariant of the array of every site that one pass of the callback
    carries from the remaining clock readings [now :: nows] to [nows]
    holds after all the passes. *)
Lemma advances_invariant (Inv : list Z -> string -> list Reading -> Prop) :
  (forall now nows id rows g j,
     Inv (now :: nows) id rows -> Inv nows id (fst (advanceRows now rows g j))) ->
  forall nows (s : Series) g j,
    (forall site, site ∈ SITES ->
       exists rows, s !! Site.id site = Some rows /\ Inv nows (Site.id site) rows) ->
    forall site, site ∈ SITES ->
      exists rows, fst (advances nows s g j) !! Site.id site = Some rows /\
                   Inv [] (Site.id site) rows.
Proof.
  intros Hstep nows. induction nows as [|now nows IH]; intros s g j Hs site Hsite;
    cbn [advances].
  - exact (Hs site Hsite).
  - unfold mbind, Rand_bind.
    destruct (advance s now g j) as [s' j'] eqn:Ea.
    apply IH; [|exact Hsite].
    intros x Hx. destruct (Hs x Hx) as (rowsx & Ex & Hrx).
    pose proof (advance_lookup s now g j x Hx) as Hl. rewrite Ea in Hl.
    cbn [fst] in Hl. rewrite Hl, Ex. cbn [default from_option id].
    eexists. split; [reflexivity|]. now apply Hstep.
Qed.


(** X7: after one pass of the callback the latest reading of every site is a
    reading stamped with the clock value of the pass and within the
    ranges.  A site that had no array, or an empty one, gets an array of
    that single reading, stepped from a reading seeded at the same clock
    value.  A key that is neither a site id nor in the map has no latest
    reading, and so no alerts. *)
Theorem advance_latest (prev : Series) (now : Z) (g : rng) (i : nat) :
  (forall site, site ∈ SITES ->
     exists r, latest (fst (advance prev now g i)) (Site.id site) = Some r /\
               ts r = now /\ in_range r /\
               (default [] (prev !! Site.id site) = [] ->
                let j := (i + drawsBefore SITES prev (Site.id site))%nat in
                fst (advance prev now g i) !! Site.id site = Some [r] /\
                r = fst (tick (fst (generateSeeded now g j)) now g (j + 10)%nat))) /\
  (forall T id, id ∉ fmap Site.id SITES -> prev !! id = None ->
     latest (fst (advance prev now g i)) id = None /\
     alerts T (latest (fst (advance prev now g i)) id) = []).
Proof.
  split.
  - intros site Hs. unfold latest. rewrite (advance_lookup prev now g i site Hs).
    cbn [default from_option id].
    destruct (advanceRows_shape now (default [] (prev !! Site.id site)) g
                (i + drawsBefore SITES prev (Site.id site))%nat) as (next & E & Hts & Hr).
    exists next. rewrite E, last_snoc.
    split; [reflexivity|]. split; [exact Hts|]. split; [exact Hr|].
    intros Hempty. cbv zeta. rewrite Hempty in *. split; [reflexivity|].
    rewrite advanceRows_eq in E. cbn [last fst] in E.
    unfold slice_last in E. cbn [length drop app Nat.sub] in E. now injection E as <-.
  - intros T id Hid Hnone. unfold latest.
    destruct (forSites_lookup now SITES prev g i SITES_NoDup) as [Hout _].
    fold (advance prev now) in Hout.
    rewrite (Hout id Hid), Hnone. split; reflexivity.
Qed.

Lemma advance_latest_witness :
  site_alki ∈ SITES /\
  exists r, latest (fst (advance ∅ 1700000000000 draws_half 0%nat)) "PS-ALKI" = Some r /\
            ts r = 1700000000000%Z /\
            fst (advance ∅ 1700000000000 draws_half 0%nat) !! "PS-ALKI" = Some [r].
Proof.
  assert (HB : site_alki ∈ SITES).
  { apply elem_of_cons. right. apply elem_of_cons. now left. }
  split; [exact HB|].
  destruct (advance_latest ∅ 1700000000000 draws_half 0%nat) as [H _].
  destruct (H site_alki HB) as (r & Hl & Hts & _ & Hempty).
  exists r. split; [exact Hl|]. split; [exact Hts|].
  exact (proj1 (Hempty eq_refl)).
Defined.

Lemma StronglySorted_snoc (l : list Z) x :
  StronglySorted Z.lt l -> Forall (fun y => (y < x)%Z) l ->
  StronglySorted Z.lt (l ++ [x]).
Proof.
  induction 1 as [|a l Hs IH Ha]; intros Hx; cbn [app].
  - repeat constructor.
  - apply Forall_cons in Hx as [Hax Hx]. constructor; [now apply IH|].
    apply Forall_app. split; [exact Ha | now constructor].
Qed.

Lemma StronglySorted_drop (l : list Z) : forall n,
  StronglySorted Z.lt l -> StronglySorted Z.lt (drop n l).
Proof.
  induction l as [|a l IH]; intros [|n] H; cbn [drop]; try exact H.
  apply IH. now inversion H.
Qed.

Lemma stamps_upper n : forall t,
  Forall (fun x => (x <= t + 300000 * (Z.of_nat n - 1))%Z) (stamps t n).
Proof.
  induction n as [|n IH]; intros t; cbn [stamps]; constructor; [lia|].
  eapply Forall_impl; [apply IH|]. cbn. intros; lia.
Qed.

(** The rows one pass computes, with their timestamps. *)
Lemma advanceRows_ts now arr g j :
  List.map ts (fst (advanceRows now arr g j))
  = drop (length arr - 240) (List.map ts arr) ++ [now].
Proof.
  destruct (advanceRows_shape now arr g j) as (next & -> & Hts & _).
  unfold slice_last. rewrite List.map_app, <- List.skipn_map. cbn [List.map].
  now rewrite Hts.
Qed.

(** X8: the timestamps of a series are strictly increasing for as long as
    the clock is: when the clock readings of the timer ticks increase
    strictly and all come after the clock reading at which the site was
    seeded, the series of every site has strictly increasing timestamps
    after seeding and all the ticks. *)
Theorem series_timestamps_increasing (fuel : nat) (clock : string -> Z)
  (nows : list Z) (g : rng) (i : nat) :
  (38 <= fuel)%nat ->
  StronglySorted Z.lt nows ->
  (forall site, site ∈ SITES -> Forall (fun n => (clock (Site.id site) < n)%Z) nows) ->
  exists seed j, seedAll fuel clock g i = (Some seed, j) /\
    forall site, site ∈ SITES ->
      exists rows, fst (advances nows seed g j) !! Site.id site = Some rows /\
                   StronglySorted Z.lt (List.map ts rows).
Proof.
  intros Hf Hnows Hclock.
  destruct (seedSites_spec fuel clock SITES ∅ g i Hf SITES_NoDup) as (m & E & _ & Hin).
  exists m, (i + 380 * length SITES)%nat. split; [exact E|].
  set (Inv := fun (rem : list Z) (id : string) (rows : list Reading) =>
    StronglySorted Z.lt rem /\
    StronglySorted Z.lt (List.map ts rows) /\
    Forall (fun t => Forall (fun n => (t < n)%Z) rem) (List.map ts rows)).
  intros site Hsite.
  destruct (advances_invariant Inv) with (nows := nows) (s := m) (g := g)
    (j := (i + 380 * length SITES)%nat) (site := site) as (rows & Hl & _ & Hs & _).
  - intros now rem id rows g' j' (Hrem & Hsorted & Hbelow).
    inversion Hrem as [|? ? Hrem' Hnow]; subst.
    unfold Inv. rewrite advanceRows_ts. split; [exact Hrem'|]. split.
    + apply StronglySorted_snoc; [now apply StronglySorted_drop|].
      apply Forall_drop. eapply Forall_impl; [exact Hbelow|].
      cbn. intros t Ht. now inversion Ht.
    + apply Forall_app. split.
      * apply Forall_drop. eapply Forall_impl; [exact Hbelow|].
        cbn. intros t Ht. now inversion Ht.
      * constructor; [exact Hnow | constructor].
  - intros x Hx. destruct (Hin x Hx) as (rows & Hl & _ & Hts & Hs & _).
    exists rows. split; [exact Hl|]. split; [exact Hnows|]. split; [exact Hs|].
    rewrite Hts. eapply Forall_impl; [apply (stamps_upper 37)|].
    cbn. intros t Ht. eapply Forall_impl; [apply (Hclock x Hx)|]. cbn. intros; lia.
  - exact Hsite.
  - eauto.
Qed.

Lemma series_timestamps_increasing_witness :
  (38 <= 40)%nat /\
  StronglySorted Z.lt (timerTicks 1700000000000 3) /\
  exists seed j,
    seedAll 40 (fun _ => 1700000000000%Z) draws_half 0%nat = (Some seed, j) /\
    forall site, site ∈ SITES ->
      exists rows,
        fst (advances (timerTicks 1700000000000 3) seed draws_half j) !! Site.id site
          = Some rows /\
        StronglySorted Z.lt (List.map ts rows).
Proof.
  assert (Hs : StronglySorted Z.lt (timerTicks 1700000000000 3)).
  { cbn. repeat (constructor; [|repeat (constructor; try lia)]). constructor. }
  split; [lia|]. split; [exact Hs|].
  apply series_timestamps_increasing; [lia | exact Hs |].
  intros site _. cbn. repeat (constructor; try lia).
Defined.

(** The timer adds no timestamp but the clock readings of its ticks. *)
Lemma advances_stamps (origin : string -> list Z) (nows : list Z) (s : Series)
  (g : rng) (j : nat) :
  (forall site, site ∈ SITES ->
     exists rows, s !! Site.id site = Some rows /\
       Forall (fun t => In t (origin (Site.id site))) (List.map ts rows)) ->
  forall site, site ∈ SITES ->
    exists rows, fst (advances nows s g j) !! Site.id site = Some rows /\
      Forall (fun t => In t (origin (Site.id site)) \/ In t nows) (List.map ts rows).
Proof.
  intros Hs site Hsite.
  set (Inv := fun (rem : list Z) (id : string) (rows : list Reading) =>
    exists done, nows = done ++ rem /\
      Forall (fun t => In t (origin id) \/ In t done) (List.map ts rows)).
  destruct (advances_invariant Inv) with (nows := nows) (s := s) (g := g)
    (j := j) (site := site) as (rows & Hl & done & Ed & Ho).
  - intros now rem id rows g' j' (done & Ed & Ho).
    exists (done ++ [now]). split; [now rewrite <- app_assoc|].
    rewrite advanceRows_ts. apply Forall_app. split.
    + apply Forall_drop. eapply Forall_impl; [exact Ho|].
      cbn. intros t [Ht|Ht]; [now left | right]. apply in_or_app. now left.
    + constructor; [|constructor]. right. apply in_or_app. right. now left.
  - intros x Hx. destruct (Hs x Hx) as (rows & Hl & Hts).
    exists rows. split; [exact Hl|]. exists []. split; [reflexivity|].
    eapply Forall_impl; [exact Hts|]. cbn. tauto.
  - exact Hsite.
  - exists rows. split; [exact Hl|]. rewrite app_nil_r in Ed. now subst done.
Qed.

(** X9: every timestamp stored in a series is one the clock gave: a step of
    the backfill from the clock reading at seeding, or the clock reading
    of a timer tick. *)
Theorem series_timestamps_origin (fuel : nat) (clock : string -> Z)
  (nows : list Z) (g : rng) (i : nat) :
  (38 <= fuel)%nat ->
  exists seed j, seedAll fuel clock g i = (Some seed, j) /\
    forall site, site ∈ SITES ->
      exists rows, fst (advances nows seed g j) !! Site.id site = Some rows /\
        Forall (fun t => In t (stamps (clock (Site.id site) - 3 * 3600000) 37)
                         \/ In t nows) (List.map ts rows).
Proof.
  intros Hf.
  destruct (seedSites_spec fuel clock SITES ∅ g i Hf SITES_NoDup) as (m & E & _ & Hin).
  exists m, (i + 380 * length SITES)%nat. split; [exact E|].
  apply (advances_stamps (fun id => stamps (clock id - 3 * 3600000) 37)).
  intros x Hx. destruct (Hin x Hx) as (rows & Hl & _ & Hts & _).
  exists rows. split; [exact Hl|].
  rewrite Hts. apply Forall_forall. intros t Ht. now apply list_elem_of_In.
Qed.

Lemma series_timestamps_origin_witness :
  (38 <= 40)%nat /\
  exists seed j,
    seedAll 40 (fun _ => 1700000000000%Z) draws_half 0%nat = (Some seed, j) /\
    forall site, site ∈ SITES ->
      exists rows,
        fst (advances (timerTicks 1700000000000 3) seed draws_half j) !! Site.id site
          = Some rows /\
        Forall (fun t => In t (stamps (1700000000000 - 3 * 3600000) 37)
                         \/ In t (timerTicks 1700000000000 3)) (List.map ts rows).
Proof.
  split; [lia|].
  apply (series_timestamps_origin 40 (fun _ => 1700000000000%Z)
           (timerTicks 1700000000000 3) draws_half 0%nat). lia.
Defined.

(** ** Active alerts *)

Lemma filter_partition_perm {A} (p : A -> bool) (l : list A) :
  Permutation (rev (List.filter p l) ++ List.filter (fun a => negb (p a)) l) l.
Proof.
  rewrite <- Permutation_rev.
  induction l as [|a l IH]; cbn [List.filter]; [reflexivity|].
  destruct (p a); cbn [negb app].
  - now constructor.
  - rewrite <- Permutation_middle. now constructor.
Qed.

Lemma classified_keys T r :
  List.map key (classified T r)
  = List.filter (fun k => negb (is_ok (classifyAlert T k (field k r)))) keys.
Proof.
  unfold classified. induction keys as [|k ks IH]; [reflexivity|].
  cbn [List.map List.filter level].
  destruct (is_ok (classifyAlert T k (field k r))); cbn [negb List.map key];
    now rewrite IH.
Qed.

Lemma classified_records T r :
  Forall (fun a => level a = classifyAlert T (key a) (field (key a) r) /\
                   value a = field (key a) r /\ level a <> Level.ok)
         (classified T r).
Proof.
  unfold classified. induction keys as [|k ks IH]; [constructor|].
  cbn [List.map List.filter level].
  destruct (classifyAlert T k (field k r)) eqn:E; cbn [is_ok negb]; [exact IH|..];
    (constructor; [cbn [level key value]; rewrite E; repeat split; discriminate | exact IH]).
Qed.

(** X10: the alert list holds exactly the parameters of the reading that do
    not classify as ok, each once, with its level and its value; every
    critical record comes before every warning record; the list is empty
    exactly when every parameter is ok. *)
Theorem alerts_content (T : Thresholds) (r : Reading) :
  Permutation (alerts T (Some r)) (classified T r) /\
  NoDup (List.map key (alerts T (Some r))) /\
  (forall k, (exists a, In a (alerts T (Some r)) /\ key a = k)
             <-> classifyAlert T k (field k r) <> Level.ok) /\
  Forall (fun a => level a = classifyAlert T (key a) (field (key a) r) /\
                   value a = field (key a) r /\ level a <> Level.ok)
         (alerts T (Some r)) /\
  (exists crits warns, alerts T (Some r) = crits ++ warns /\
     Forall (fun a => level a = Level.crit) crits /\
     Forall (fun a => level a = Level.warn) warns) /\
  (alerts T (Some r) = [] <-> forall k, classifyAlert T k (field k r) = Level.ok).
Proof.
  assert (Hp : Permutation (alerts T (Some r)) (classified T r)).
  { rewrite alerts_v8_order. apply filter_partition_perm. }
  assert (Hk : forall k, In k (List.map key (classified T r))
                         <-> classifyAlert T k (field k r) <> Level.ok).
  { intros k. rewrite classified_keys, List.filter_In. split.
    - intros [_ H]. destruct (classifyAlert T k (field k r)); [discriminate H|..];
        discriminate.
    - intros H. split; [destruct k; cbn; tauto|].
      destruct (classifyAlert T k (field k r)); [now destruct H|..]; reflexivity. }
  split; [exact Hp|]. split.
  { rewrite (Permutation_map key Hp), classified_keys.
    apply NoDup_ListNoDup, List.NoDup_filter, NoDup_ListNoDup.
    apply (bool_decide_unpack _). vm_compute. reflexivity. }
  split.
  { intros k. rewrite <- Hk, <- (Permutation_map key Hp), List.in_map_iff.
    split; intros (a & H1 & H2); exists a; tauto. }
  split.
  { rewrite Hp. apply classified_records. }
  split.
  { rewrite alerts_v8_order. eexists _, _. split; [reflexivity|]. split.
    - apply Forall_rev. apply List.Forall_forall. intros a Ha.
      apply List.filter_In in Ha as [_ Ha]. now destruct (level a).
    - apply List.Forall_forall. intros a Ha.
      apply List.filter_In in Ha as [Hin Ha].
      pose proof (classified_records T r) as Hr.
      rewrite List.Forall_forall in Hr. destruct (Hr a Hin) as (_ & _ & Hok).
      destruct (level a); [now destruct Hok | reflexivity | discriminate Ha]. }
  split.
  - intros E k. rewrite E in Hp. apply Permutation_nil in Hp.
    destruct (classifyAlert T k (field k r)) eqn:Ek; [reflexivity|..];
      exfalso; (assert (Hin : In k (List.map key (classified T r)))
        by (apply Hk; rewrite Ek; discriminate)); now rewrite Hp in Hin.
  - intros H. now apply alerts_all_ok.
Qed.

(** ** Reading the export back *)

Lemma all_chars_app p (a b : string) :
  all_chars p (a +:+ b) = all_chars p a && all_chars p b.
Proof.
  induction a as [|c a IH]; [reflexivity|].
  rewrite append_cons. cbn [all_chars]. now rewrite IH, andb_assoc.
Qed.

Lemma all_chars_substring p (s : string) : forall n m,
  all_chars p s = true -> all_chars p (String.substring n m s) = true.
Proof.
  induction s as [|c s IH]; intros n m H.
  - now destruct n, m.
  - cbn [all_chars] in H. apply andb_true_iff in H as [Hc Hs].
    destruct n as [|n]; [destruct m as [|m]|]; cbn [String.substring all_chars].
    + reflexivity.
    + rewrite Hc. cbn [andb]. now apply IH.
    + now apply IH.
Qed.

Lemma all_chars_impl (p q : ascii -> bool) (s : string) :
  (forall c, p c = true -> q c = true) -> all_chars p s = true -> all_chars q s = true.
Proof.
  intros Hpq. induction s as [|c s IH]; [reflexivity|]. cbn [all_chars].
  intros H. apply andb_true_iff in H as [Hc Hs]. now rewrite (Hpq c Hc), IH.
Qed.

Lemma zeros_chars n : all_chars cell_char (zeros n) = true.
Proof.
  induction n as [|n IH]; [reflexivity|].
  cbn [zeros]. now rewrite all_chars_app, IH.
Qed.

Lemma uint_chars d : all_chars cell_char (NilEmpty.string_of_uint d) = true.
Proof. induction d; cbn [NilEmpty.string_of_uint all_chars]; now rewrite ?IHd. Qed.

Lemma Number_toString_chars n : all_chars cell_char (Number_toString n) = true.
Proof.
  unfold Number_toString, NilZero.string_of_int, NilZero.string_of_uint.
  destruct (Z.to_int n) as [d|d]; destruct d; try reflexivity;
    cbn [all_chars]; rewrite ?uint_chars; reflexivity.
Qed.

Lemma pad_chars w n : all_chars cell_char (pad w n) = true.
Proof. unfold pad. now rewrite all_chars_app, zeros_chars, Number_toString_chars. Qed.

Lemma toFixed_chars x f s : toFixed x f = Some s -> all_chars cell_char s = true.
Proof.
  unfold toFixed. cbv zeta. destruct (Qle_bool (10 ^ 21) (Qabs x)); [discriminate|].
  intros [= <-]. rewrite all_chars_app. apply andb_true_iff. split.
  - now destruct (Qle_bool 0 x).
  - destruct (f =? 0)%nat; [apply Number_toString_chars|].
    set (m' := if (_ <=? f)%nat then _ else _).
    assert (Hm' : all_chars cell_char m' = true).
    { unfold m'. destruct (_ <=? f)%nat; [|apply Number_toString_chars].
      now rewrite all_chars_app, zeros_chars, Number_toString_chars. }
    rewrite !all_chars_app, !all_chars_substring by exact Hm'. reflexivity.
Qed.

Lemma toISOString_chars t s : toISOString t = Some s -> all_chars cell_char s = true.
Proof.
  unfold toISOString. destruct (Z.abs t <=? 8640000000000000)%Z; [|discriminate].
  destruct (civil (t / 86400000)) as [[y m] d]. intros [= <-].
  rewrite !all_chars_app, !pad_chars.
  destruct ((0 <=? y)%Z && (y <=? 9999)%Z); [now rewrite pad_chars|].
  rewrite all_chars_app, pad_chars. now destruct (0 <=? y)%Z.
Qed.

(** A piece without the separator is read back whole, and a joined list
    of such pieces is read back as the list. *)
Lemma splitOn_free sep (s : string) :
  all_chars (fun c => negb (Ascii.eqb c sep)) s = true -> splitOn sep s = [s].
Proof.
  induction s as [|c s IH]; [reflexivity|]. cbn [all_chars splitOn].
  intros H. apply andb_true_iff in H as [Hc Hs].
  apply negb_true_iff in Hc. now rewrite Hc, (IH Hs).
Qed.

Lemma splitOn_app sep (a b : string) :
  all_chars (fun c => negb (Ascii.eqb c sep)) a = true ->
  splitOn sep (a +:+ String sep b) = a :: splitOn sep b.
Proof.
  induction a as [|c a IH].
  - intros _. rewrite append_nil_l. cbn [splitOn]. now rewrite Ascii.eqb_refl.
  - cbn [all_chars]. intros H. apply andb_true_iff in H as [Hc Hs].
    apply negb_true_iff in Hc. rewrite append_cons. cbn [splitOn].
    now rewrite Hc, (IH Hs).
Qed.

Lemma splitOn_concat sep (l : list string) : forall x,
  Forall (fun s => all_chars (fun c => negb (Ascii.eqb c sep)) s = true) (x :: l) ->
  splitOn sep (String.concat (String sep EmptyString) (x :: l)) = x :: l.
Proof.
  induction l as [|y l IH]; intros x H.
  - apply splitOn_free. now inversion H.
  - inversion H as [|? ? Hx Hl]; subst.
    change (String.concat (String sep "") (x :: y :: l))
      with (x +:+ String sep "" +:+ String.concat (String sep "") (y :: l)).
    rewrite append_cons, append_nil_l, splitOn_app by exact Hx.
    now rewrite IH.
Qed.

Lemma cell_char_free sep :
  cell_char sep = false ->
  forall s, all_chars cell_char s = true ->
            all_chars (fun c => negb (Ascii.eqb c sep)) s = true.
Proof.
  intros Hsep s. apply all_chars_impl. intros c Hc.
  apply negb_true_iff. destruct (Ascii.eqb_spec c sep) as [->|]; [congruence|reflexivity].
Qed.

Lemma line_cells r : line r = option_map (String.concat ",") (cells r).
Proof.
  unfold line, cells.
  destruct (toISOString (ts r)); [|reflexivity]. cbn [mbind option_bind].
  repeat match goal with
  | |- context [toFixed ?x ?f] =>
      destruct (toFixed x f); [cbn [mbind option_bind]|reflexivity]
  end.
  reflexivity.
Qed.

Lemma cells_chars r c :
  cells r = Some c ->
  length c = 12%nat /\ Forall (fun s => all_chars cell_char s = true) c /\
  head c = Some (Number_toString (ts r)).
Proof.
  unfold cells.
  destruct (toISOString (ts r)) eqn:Ei; [|discriminate]. cbn [mbind option_bind].
  destruct (toFixed (temp r) 2) eqn:E1; [cbn [mbind option_bind]|discriminate].
  destruct (toFixed (sal r) 2) eqn:E2; [cbn [mbind option_bind]|discriminate].
  destruct (toFixed (ph r) 2) eqn:E3; [cbn [mbind option_bind]|discriminate].
  destruct (toFixed (do r) 2) eqn:E4; [cbn [mbind option_bind]|discriminate].
  destruct (toFixed (turb r) 1) eqn:E5; [cbn [mbind option_bind]|discriminate].
  destruct (toFixed (chl r) 1) eqn:E6; [cbn [mbind option_bind]|discriminate].
  destruct (toFixed (gene_expr r) 1) eqn:E7; [cbn [mbind option_bind]|discriminate].
  destruct (toFixed (methyl r) 3) eqn:E8; [cbn [mbind option_bind]|discriminate].
  destruct (toFixed (metabo r) 1) eqn:E9; [cbn [mbind option_bind]|discriminate].
  destruct (toFixed (lipid_ox r) 3) eqn:E10; [cbn [mbind option_bind]|discriminate].
  intros [= <-]. split; [reflexivity|]. split; [|reflexivity].
  repeat (apply List.Forall_cons;
          [first [apply Number_toString_chars
                 | eapply toISOString_chars; eassumption
                 | eapply toFixed_chars; eassumption]|]).
  apply List.Forall_nil.
Qed.

(** The timestamp column read as a decimal integer is the timestamp. *)
Lemma Number_toString_parse n :
  option_map Z.of_int (NilZero.int_of_string (Number_toString n)) = Some n.
Proof.
  unfold Number_toString. rewrite NilZero.isi.
  - cbn [option_map]. now rewrite DecimalZ.of_to.
  - destruct n; cbn [Z.to_int]; intros [= H]; try discriminate H.
    now apply DecimalPos.Unsigned.to_uint_nonnil in H.
  - destruct n; cbn [Z.to_int]; intros [= H].
    now apply DecimalPos.Unsigned.to_uint_nonnil in H.
Qed.

Lemma all_chars_concat p (sep : string) (l : list string) :
  all_chars p sep = true -> Forall (fun s => all_chars p s = true) l ->
  all_chars p (String.concat sep l) = true.
Proof.
  intros Hsep. induction 1 as [|x l Hx Hl IH]; [reflexivity|].
  destruct l as [|y l]; [exact Hx|].
  change (String.concat sep (x :: y :: l)) with (x +:+ sep +:+ String.concat sep (y :: l)).
  now rewrite !all_chars_app, Hx, Hsep, IH.
Qed.

Lemma cells_exportable rows :
  Forall exportable rows ->
  exists table, mapM cells rows = Some table /\
                mapM line rows = Some (List.map (String.concat ",") table).
Proof.
  induction 1 as [|r rows Hr _ (table & Ec & El)].
  - exists []. split; reflexivity.
  - destruct (line_exportable r Hr) as (l & Hl & _).
    rewrite line_cells in Hl. destruct (cells r) as [c|] eqn:Er; [|discriminate Hl].
    exists (c :: table). split.
    + apply mapM_Some. constructor; [exact Er|]. now apply mapM_Some.
    + apply mapM_Some. cbn [List.map]. constructor.
      * rewrite line_cells, Er. reflexivity.
      * now apply mapM_Some.
Qed.

(** The text [toCSV] returns for exportable readings, and its lines. *)
Lemma toCSV_lines (rows : list Reading) :
  Forall exportable rows ->
  exists table,
    mapM cells rows = Some table /\
    Forall (fun c => length c = 12%nat /\
                     Forall (fun s => all_chars cell_char s = true) c) table /\
    toCSV rows = Some (String.concat LF (header :: List.map (String.concat ",") table)) /\
    splitOn (ascii_of_nat 10)
      (String.concat LF (header :: List.map (String.concat ",") table))
    = header :: List.map (String.concat ",") table.
Proof.
  intros H. destruct (cells_exportable rows H) as (table & Ec & El).
  assert (Hc : Forall2 (fun r c => cells r = Some c) rows table) by now apply mapM_Some.
  assert (Ht : Forall (fun c => length c = 12%nat /\
                                Forall (fun s => all_chars cell_char s = true) c) table).
  { clear -Hc. induction Hc as [|r c rows table Hr _ IH]; constructor; [|exact IH].
    destruct (cells_chars r c Hr) as (Hl & Hch & _). now split. }
  exists table. split; [exact Ec|]. split; [exact Ht|].
  split; [unfold toCSV; now rewrite El|].
  unfold LF. apply splitOn_concat.
  constructor; [vm_compute; reflexivity|].
  clear -Ht. induction Ht as [|c table [Hl Hch] _ IH]; [constructor|].
  cbn [List.map]. constructor; [|exact IH].
  apply all_chars_concat; [reflexivity|].
  eapply Forall_impl; [exact Hch|]. cbn. intros s. now apply cell_char_free.
Qed.

(** X11: the text [toCSV] returns can be read back: split at the line feeds
    and the commas it is the row of the twelve column names followed, for
    every reading in order, by the row of its twelve cells, and the first
    cell read as a decimal integer is the timestamp of the reading.  No
    cell contains a comma or a line feed. *)
Theorem toCSV_parse (rows : list Reading) :
  Forall exportable rows ->
  exists text table,
    toCSV rows = Some text /\
    mapM cells rows = Some table /\
    parseCSV text = columns :: table /\
    Forall (fun c => length c = 12%nat) table /\
    Forall2 (fun r c =>
               option_map Z.of_int (NilZero.int_of_string (default "" (head c)))
               = Some (ts r)) rows table.
Proof.
  intros H. destruct (toCSV_lines rows H) as (table & Ec & Ht & El & Es).
  assert (Hc : Forall2 (fun r c => cells r = Some c) rows table) by now apply mapM_Some.
  exists (String.concat LF (header :: List.map (String.concat ",") table)), table.
  split; [exact El|]. split; [exact Ec|]. split; [|split].
  - unfold parseCSV. rewrite Es.
    cbn [List.map]. f_equal. rewrite List.map_map.
    clear -Ht. induction Ht as [|c table [Hl Hch] _ IH]; [reflexivity|].
    cbn [List.map]. rewrite IH. f_equal.
    destruct c as [|x c]; [discriminate Hl|].
    apply (splitOn_concat ","%char). eapply Forall_impl; [exact Hch|].
    cbn. intros s. now apply cell_char_free.
  - eapply Forall_impl; [exact Ht|]. cbn. tauto.
  - clear -Hc. induction Hc as [|r c rows table Hr _ IH]; constructor; [|exact IH].
    destruct (cells_chars r c Hr) as (_ & _ & ->). cbn [default from_option id].
    apply Number_toString_parse.
Qed.

Lemma toCSV_parse_witness :
  Forall exportable [reading_two_crit] /\
  exists text table,
    toCSV [reading_two_crit] = Some text /\
    mapM cells [reading_two_crit] = Some table /\
    parseCSV text = columns :: table.
Proof.
  assert (He : exportable reading_two_crit).
  { split; [cbn; lia|]. intros k. destruct k; qcompute. }
  assert (H : Forall exportable [reading_two_crit]).
  { apply List.Forall_cons; [exact He|]. apply List.Forall_nil. }
  split; [exact H|].
  destruct (toCSV_parse [reading_two_crit] H) as (text & table & Ht & Ec & Ep & _).
  exists text, table. auto.
Defined.

(** X12: exporting never fails in a running application: after seeding and
    any number of timer ticks, with clock readings that are valid time
    values, the series of every site is exported, and the text has one
    header line and one line per reading, [1 + min (37 + ticks) 241] in
    all. *)
Theorem reachable_export (fuel : nat) (clock : string -> Z) (nows : list Z)
  (g : rng) (i : nat) :
  (38 <= fuel)%nat ->
  (forall site, site ∈ SITES ->
     (- 8640000000000000 + 3 * 3600000 <= clock (Site.id site) <= 8640000000000000)%Z) ->
  Forall (fun n => (Z.abs n <= 8640000000000000)%Z) nows ->
  exists seed j, seedAll fuel clock g i = (Some seed, j) /\
    forall site, site ∈ SITES ->
      exists text,
        toCSV (data (fst (advances nows seed g j)) (Site.id site)) = Some text /\
        length (splitOn (ascii_of_nat 10) text)
          = (1 + Nat.min (37 + length nows) 241)%nat.
Proof.
  intros Hf Hclock Hnows.
  destruct (seeded_then_advanced fuel clock nows g i Hf) as (seed & j & E & Hlen).
  destruct (reachable_in_range fuel clock nows g i Hf) as (seed1 & j1 & E1 & Hrange).
  destruct (seedSites_spec fuel clock SITES ∅ g i Hf SITES_NoDup) as (seed2 & E2 & _ & Hseed).
  fold (seedAll fuel clock) in E2.
  rewrite E in E1, E2. injection E1 as <- <-. injection E2 as <- Ej.
  assert (Horigin := advances_stamps (fun id => stamps (clock id - 3 * 3600000) 37)
                       nows seed g j).
  cbv beta in Horigin.
  exists seed, j. split; [exact E|]. intros site Hsite.
  destruct (Hlen site Hsite) as (rows & Hl & Hrows).
  destruct (Hrange site Hsite) as (rows1 & Hl1 & Hr). rewrite Hl in Hl1. injection Hl1 as <-.
  destruct (Horigin) with (site := site) as (rows2 & Hl2 & Ho); [|exact Hsite|].
  { intros x Hx. destruct (Hseed x Hx) as (rowsx & Hlx & _ & Htx & _).
    exists rowsx. split; [exact Hlx|].
    rewrite Htx. apply Forall_forall. intros t Ht. now apply list_elem_of_In. }
  rewrite Hl in Hl2. injection Hl2 as <-.
  assert (He : Forall exportable rows).
  { rewrite List.Forall_map in Ho. rewrite List.Forall_forall in *.
    intros r Hin. apply in_range_exportable; [|now apply Hr].
    destruct (Ho r Hin) as [Hs|Hn].
    - pose proof (stamps_lower (clock (Site.id site) - 3 * 3600000) 37) as Lo.
      pose proof (stamps_upper 37 (clock (Site.id site) - 3 * 3600000)) as Up.
      rewrite List.Forall_forall in Lo, Up.
      specialize (Lo _ Hs). specialize (Up _ Hs). cbn in Lo, Up.
      specialize (Hclock site Hsite). lia.
    - now apply Hnows. }
  destruct (toCSV_lines rows He) as (table & Ec & _ & Ht & Ep).
  eexists. unfold data. rewrite Hl. cbn [default from_option id].
  split; [exact Ht|].
  rewrite Ep. cbn [length]. rewrite List.length_map.
  apply length_mapM in Ec. lia.
Qed.

Lemma reachable_export_witness :
  (38 <= 40)%nat /\
  exists seed j,
    seedAll 40 (fun _ => 1700000000000%Z) draws_half 0%nat = (Some seed, j) /\
    forall site, site ∈ SITES ->
      exists text,
        toCSV (data (fst (advances (timerTicks 1700000000000 3) seed draws_half j))
                 (Site.id site)) = Some text /\
        length (splitOn (ascii_of_nat 10) text) = 41%nat.
Proof.
  split; [lia|].
  apply (reachable_export 40 (fun _ => 1700000000000%Z)
           (timerTicks 1700000000000 3) draws_half 0%nat); [lia| |].
  - intros site _. lia.
  - cbn. repeat (constructor; [lia|]). constructor.
Defined.

(** ** Site search *)

Lemma prefix_app (q b : string) : String.prefix q (q +:+ b) = true.
Proof.
  induction q as [|c q IH]; [now destruct b|].
  rewrite append_cons. cbn [String.prefix]. now destruct (ascii_dec c c).
Qed.

Lemma prefix_inv (q : string) : forall s,
  String.prefix q s = true -> exists b, s = q +:+ b.
Proof.
  induction q as [|c q IH]; intros s H.
  - exists s. now rewrite append_nil_l.
  - destruct s as [|d s]; [discriminate H|]. cbn [String.prefix] in H.
    destruct (ascii_dec c d) as [->|]; [|discriminate H].
    destruct (IH s H) as (b & ->). exists b. now rewrite append_cons.
Qed.

(** [includes s q] holds exactly when [q] occurs in [s]. *)
Lemma includes_iff (s q : string) :
  includes s q = true <-> exists a b, s = a +:+ q +:+ b.
Proof.
  induction s as [|c s IH]; cbn [includes].
  - rewrite orb_false_r. split.
    + intros H. destruct (prefix_inv q "" H) as (b & E). exists "", b.
      now rewrite append_nil_l.
    + intros (a & b & E). destruct a as [|x a]; [|discriminate E].
      rewrite append_nil_l in E. rewrite E. apply prefix_app.
  - rewrite orb_true_iff, IH. split.
    + intros [H|(a & b & ->)].
      * destruct (prefix_inv q _ H) as (b & E). exists "", b.
        now rewrite append_nil_l.
      * exists (String c a), b. now rewrite append_cons.
    + intros (a & b & E). destruct a as [|x a].
      * left. rewrite append_nil_l in E. rewrite E. apply prefix_app.
      * right. rewrite append_cons in E. injection E as _ ->. eauto.
Qed.

Lemma includes_refl (s : string) : includes s s = true.
Proof.
  apply includes_iff. exists "", "". rewrite append_nil_l.
  clear. induction s as [|c s IH]; [reflexivity|]. rewrite append_cons. now f_equal.
Qed.

(** Whatever occurs in [s] with more text after it occurs in [s]. *)
Lemma includes_shorter (s q more : string) :
  includes s (q +:+ more) = true -> includes s q = true.
Proof.
  rewrite !includes_iff. intros (a & b & ->). exists a, (more +:+ b).
  now rewrite append_assoc.
Qed.

Lemma map_chars_app f (a b : string) :
  map_chars f (a +:+ b) = map_chars f a +:+ map_chars f b.
Proof.
  induction a as [|c a IH]; [reflexivity|].
  rewrite append_cons. cbn [map_chars]. now rewrite IH, append_cons.
Qed.

Lemma toLowerCase_app (a b qa : string) q :
  toLowerCase (a +:+ b) = Some q -> toLowerCase a = Some qa ->
  exists qb, q = qa +:+ qb.
Proof.
  unfold toLowerCase. rewrite all_chars_app.
  destruct (all_chars is_ascii7 a); [|discriminate].
  destruct (all_chars is_ascii7 b); [|discriminate]. cbn [andb].
  intros [= <-] [= <-]. rewrite map_chars_app. eauto.
Qed.

Lemma filterM_spec {A} (p : A -> option bool) (l : list A) :
  Forall (fun x => is_Some (p x)) l ->
  exists k, filterM p l = Some k /\ k `sublist_of` l /\
            forall x, x ∈ k <-> x ∈ l /\ p x = Some true.
Proof.
  induction 1 as [|x l [b Hb] _ (k & Ek & Hs & Hk)]; cbn [filterM].
  - exists []. split; [reflexivity|]. split; [constructor|].
    intros x. rewrite elem_of_nil. tauto.
  - rewrite Hb, Ek. cbn [mbind option_bind]. destruct b.
    + exists (x :: k). split; [reflexivity|]. split; [now constructor|].
      intros y. rewrite !elem_of_cons, Hk. split.
      * intros [->|[? ?]]; auto.
      * intros [[->|?] ?]; auto.
    + exists k. split; [reflexivity|]. split; [now constructor|].
      intros y. rewrite elem_of_cons, Hk. split.
      * intros [? ?]; auto.
      * intros [[->|?] ?]; [congruence|auto].
Qed.

Lemma SITES_ascii q : Forall (fun s => is_Some (siteMatches q s)) SITES.
Proof.
  unfold SITES. repeat (apply List.Forall_cons; [eexists; reflexivity|]).
  apply List.Forall_nil.
Qed.

(** X13: the site list under a search text of ASCII characters: the sites
    whose lowered name or id contains the lowered text, in the order of
    the configuration (all the sites for the empty text).  A site is
    found by its own id and by its own name typed in any letter case, and
    typing more characters never brings a site back into the list. *)
Theorem filteredSites_spec (search : string) :
  all_chars is_ascii7 search = true ->
  exists l,
    filteredSites search = Some l /\
    l `sublist_of` SITES /\
    (search = EmptyString -> l = SITES) /\
    (forall q, toLowerCase search = Some q ->
       forall site, site ∈ l <-> site ∈ SITES /\ siteMatches q site = Some true) /\
    (forall site, site ∈ SITES ->
       toLowerCase search = toLowerCase (Site.id site) \/
       toLowerCase search = toLowerCase (Site.name site) ->
       site ∈ l) /\
    (forall more l', filteredSites (search +:+ more) = Some l' -> l' ⊆ l).
Proof.
  intros Ha.
  assert (Hq : toLowerCase search = Some (map_chars lower_char search))
    by (unfold toLowerCase; now rewrite Ha).
  set (q := map_chars lower_char search) in *.
  destruct (filterM_spec (siteMatches q) SITES (SITES_ascii q)) as (k & Ek & Hs & Hk).
  assert (Hfound : forall site, site ∈ SITES ->
       toLowerCase search = toLowerCase (Site.id site) \/
       toLowerCase search = toLowerCase (Site.name site) ->
       siteMatches q site = Some true).
  { intros site Hsite Hcase. rewrite Hq in Hcase. unfold siteMatches.
    pose proof (SITES_ascii q) as Hall. rewrite List.Forall_forall in Hall.
    apply list_elem_of_In in Hsite. destruct (Hall site Hsite) as [b Hb].
    unfold siteMatches in Hb.
    destruct (toLowerCase (Site.name site)) as [n|]; [|discriminate Hb].
    destruct (toLowerCase (Site.id site)) as [i|]; [|discriminate Hb].
    cbn [mbind option_bind]. f_equal.
    destruct Hcase as [[= ->]|[= ->]]; rewrite includes_refl; [apply orb_true_r|reflexivity]. }
  destruct search as [|c search].
  - exists SITES. split; [reflexivity|]. split; [reflexivity|]. split; [reflexivity|].
    split; [|split].
    + intros q' [= <-] site. split; [|tauto]. intros Hsite. split; [exact Hsite|].
      apply list_elem_of_In in Hsite.
      unfold SITES in Hsite. cbn [In] in Hsite.
      destruct Hsite as [<-|[<-|[<-|[<-|[]]]]]; reflexivity.
    + auto.
    + intros more l' Hl'. rewrite append_nil_l in Hl'.
      destruct more as [|d more]; [now injection Hl' as <-|].
      cbn [filteredSites] in Hl'.
      destruct (toLowerCase (String d more)) as [q'|]; [|discriminate Hl'].
      cbn [mbind option_bind] in Hl'.
      destruct (filterM_spec (siteMatches q') SITES (SITES_ascii q')) as (k' & Ek' & Hs' & _).
      rewrite Ek' in Hl'. injection Hl' as <-. now apply sublist_subseteq.
  - exists k. cbn [filteredSites]. rewrite Hq. cbn [mbind option_bind].
    split; [exact Ek|]. split; [exact Hs|]. split; [discriminate|].
    split; [|split].
    + intros q' [= <-]. exact Hk.
    + intros site Hsite Hcase. apply Hk. split; [exact Hsite|]. rewrite <- Hq in Hcase. apply Hfound; [exact Hsite|exact Hcase].
    + intros more l' Hl'. rewrite append_cons in Hl'. cbn [filteredSites] in Hl'.
      rewrite <- append_cons in Hl'.
      destruct (toLowerCase (String c search +:+ more)) as [q'|] eqn:Eq';
        [|discriminate Hl'].
      cbn [mbind option_bind] in Hl'.
      destruct (toLowerCase_app _ _ q _ Eq' Hq) as (qb & ->).
      destruct (filterM_spec (siteMatches (q +:+ qb)) SITES (SITES_ascii _))
        as (k' & Ek' & _ & Hk').
      rewrite Ek' in Hl'. injection Hl' as <-.
      intros site Hsite. apply Hk' in Hsite as [Hin Hm]. apply Hk. split; [exact Hin|].
      unfold siteMatches in *.
      destruct (toLowerCase (Site.name site)) as [n|]; [|discriminate Hm].
      destruct (toLowerCase (Site.id site)) as [i|]; [|discriminate Hm].
      cbn [mbind option_bind] in *. injection Hm as Hm. f_equal.
      apply orb_true_iff in Hm. apply orb_true_iff.
      destruct Hm as [Hm|Hm]; [left|right]; now apply includes_shorter in Hm.
Qed.

Lemma filteredSites_spec_witness :
  all_chars is_ascii7 "ps-alKI" = true /\
  exists l, filteredSites "ps-alKI" = Some l /\ site_alki ∈ l.
Proof.
  split; [reflexivity|].
  destruct (filteredSites_spec "ps-alKI" eq_refl) as (l & El & _ & _ & _ & Hfound & _).
  exists l. split; [exact El|]. apply Hfound.
  - apply elem_of_cons. right. apply elem_of_cons. now left.
  - left. reflexivity.
Defined.

(** ** The streaming timer *)

Lemma settled_mount : settled mount.
Proof.
  unfold settled, mount, runEffect. cbn. exists 1%positive.
  split; [reflexivity|]. split; [set_solver|reflexivity].
Qed.

Lemma settled_step st e : settled st -> settled (streamStep st e).
Proof.
  unfold settled. destruct st as [s r l c f]. cbn [streaming timerRef live cleanup].
  destruct s; intros H.
  - destruct H as (h & -> & -> & ->).
    destruct e; unfold streamStep, setStreaming, runCleanup, runEffect, clearCurrent;
      cbn.
    + split; [reflexivity|]. split; [set_solver|reflexivity].
    + exists f. split; [reflexivity|]. split; [set_solver|reflexivity].
  - destruct H as (-> & -> & ->).
    destruct e; unfold streamStep, setStreaming, runCleanup, runEffect, clearCurrent;
      cbn.
    + exists f. split; [reflexivity|]. split; [set_solver|reflexivity].
    + split; [reflexivity|]. split; [reflexivity|reflexivity].
Qed.

Lemma settled_run events st :
  settled st -> settled (fold_left streamStep events st).
Proof.
  revert st. induction events as [|e events IH]; intros st H; [exact H|].
  cbn [fold_left]. apply IH. now apply settled_step.
Qed.

Lemma streaming_step st e :
  streaming (streamStep st e) =
  match e with Toggle => negb (streaming st) | Remount => streaming st end.
Proof.
  destruct st as [s r l c f], e, s, c; reflexivity.
Qed.

Lemma streaming_run events st :
  streaming (fold_left streamStep events st) =
  if Nat.even (toggles events) then streaming st else negb (streaming st).
Proof.
  revert st. induction events as [|e events IH]; intros st; [reflexivity|].
  cbn [fold_left]. rewrite IH, streaming_step.
  destruct e; cbn [toggles]; [|reflexivity].
  rewrite Nat.even_succ, <- Nat.negb_even.
  destruct (Nat.even (toggles events)), (streaming st); reflexivity.
Qed.

(** X14: after any sequence of switch toggles and remounts, the streaming
    effect keeps at most one interval timer alive: exactly one, the one
    in the ref, while streaming (an even number of toggles since the
    mount) and none while paused; unmounting leaves no timer behind. *)
Theorem stream_one_timer (events : list StreamEvent) :
  let st := streamRun events in
  streaming st = Nat.even (toggles events) /\
  (if streaming st
   then exists h, timerRef st = Some h /\ live st = {[ h ]}
   else timerRef st = None /\ live st = ∅) /\
  live (unmount st) = ∅.
Proof.
  intros st. pose proof (settled_run events mount settled_mount) as H.
  fold (streamRun events) in H. fold st in H.
  split.
  - unfold st, streamRun. rewrite streaming_run.
    now destruct (Nat.even (toggles events)).
  - unfold settled, unmount, runCleanup, clearCurrent in *.
    destruct (streaming st).
    + destruct H as (h & Hr & Hl & Hc). split; [eauto|].
      rewrite Hc. cbn. rewrite Hr, Hl. set_solver.
    + destruct H as (Hr & Hl & Hc). split; [auto|]. now rewrite Hc.
Qed.

(** ** Displayed values *)

(** X15: the decimal text [toFixed] gives for a number below [10^21] in
    magnitude, read back as a number, is within half a unit of its last
    digit of the magnitude of the number; the sign is written apart, also
    when every digit is zero. *)
Theorem toFixed_accuracy (x : Q) (f : nat) :
  (0 < f)%nat -> Qabs x < 10 ^ 21 ->
  exists s int frac n,
    toFixed x f = Some s /\
    s = (if Qle_bool 0 x then "" else "-") +:+ int +:+ "." +:+ frac /\
    String.length frac = f /\
    decimal_value (int +:+ frac) = Some n /\
    Qabs (inject_Z n / 10 ^ Z.of_nat f - Qabs x) <= (1 # 2) / 10 ^ Z.of_nat f.
Proof.
  intros Hf Hx.
  destruct (toFixed_fixed x f Hf Hx) as (s & Es & int & frac & E & _ & Hlen & Hv).
  exists s, int, frac, (Qfloor (Qabs x * 10 ^ Z.of_nat f + (1 # 2))).
  split; [exact Es|]. split; [exact E|]. split; [exact Hlen|]. split; [exact Hv|].
  set (y := Qabs x) in *. set (p := 10 ^ Z.of_nat f).
  assert (Hp : 0 < p) by (apply Qpower_0_lt; reflexivity).
  pose proof (Qfloor_le (y * p + (1 # 2))) as Lo.
  pose proof (Qlt_floor (y * p + (1 # 2))) as Up.
  set (n := Qfloor (y * p + (1 # 2))) in *.
  rewrite inject_Z_plus in Up. change (inject_Z 1) with 1 in Up.
  assert (Hu : 0 < / p) by now apply Qinv_lt_0_compat.
  assert (Hpu : p * / p == 1) by (apply Qmult_inv_r; lra).
  unfold Qdiv. set (u := / p) in *.
  apply Qabs_Qle_condition. split; nra.
Qed.

Lemma toFixed_accuracy_witness :
  exists s int frac n,
    toFixed (- (1 # 250)) 2 = Some s /\
    s = "-" +:+ int +:+ "." +:+ frac /\
    decimal_value (int +:+ frac) = Some n /\
    Qabs (inject_Z n / 10 ^ 2 - (1 # 250)) <= (1 # 2) / 10 ^ 2.
Proof.
  destruct (toFixed_accuracy (- (1 # 250)) 2) as (s & int & frac & n & Es & E & _ & Hv & Hb);
    [lia | reflexivity |].
  exists s, int, frac, n. auto.
Defined.
